(** * LabelSelector: a shallow embedding of [labelSelector.js]

    The selector keeps its conjuncts in a JavaScript object keyed by the
    conjunct id.  Such an object enumerates its string keys in insertion
    order, and assigning to a key that is already there keeps the key at its
    place; every id built by [_getIdForConjunct] contains the character "-",
    so none of them is an array index (which would be enumerated first).  The
    object is therefore modelled by an association list in enumeration
    order, and the uniqueness of its keys is a theorem, not a hypothesis.

    Typing of the JavaScript values, following the data model:
    - keys, label values and the entries of [values] are strings;
    - [values] is always an array (an array, even an empty one, is truthy);
    - an operator is a string or [undefined] ([None]), which is what a
      lookup of an unknown name in [_OPERATOR_MAP] gives;
    - property lookups see own properties only: [lbls !! key] and
      [table_get] are the program's [labels[key]] and [table[name]] for every
      name that is not the name of a member of [Object.prototype]
      ([object_prototype_names]); a statement that depends on what a lookup
      gives for a name without own property assumes that the name is not
      one of those;
    - [JSON.stringify] and [JSON.parse] are represented by the value they
      encode: a property whose value is [undefined] is left out of the text
      and reads back as [undefined]. *)

From Stdlib Require Import String Ascii List Bool Arith Lia Permutation.
From stdpp Require Import base option list strings gmap.

(** ** JavaScript values used by the program *)

(** [String(v)] for a value that is a string or [undefined]; this is also
    the property name used by [table[v]]. *)
Definition js_to_string (v : option string) : string :=
  match v with
  | Some s => s
  | None => "undefined"
  end.

(** Truthiness of a value that is a string or [undefined]. *)
Definition truthy (v : option string) : bool :=
  match v with
  | Some s => negb (String.eqb s "")
  | None => false
  end.

(** [v === ""]. *)
Definition is_empty_string (v : option string) : bool :=
  match v with
  | Some s => String.eqb s ""
  | None => false
  end.

(** [v == s] for [s] a string and [v] a string or [undefined]. *)
Definition loose_eq (v : option string) (s : string) : bool :=
  match v with
  | Some x => String.eqb x s
  | None => false
  end.

(** [a === b] for two values that are strings or [undefined]. *)
Definition strict_eq (a b : option string) : bool :=
  match a, b with
  | Some x, Some y => String.eqb x y
  | None, None => true
  | _, _ => false
  end.

(** [Array.prototype.join]. *)
Fixpoint join (sep : string) (l : list string) : string :=
  match l with
  | [] => ""
  | [x] => x
  | x :: rest => x +:+ sep +:+ join sep rest
  end.

(** [array.includes(x)] on strings. *)
Definition includes (l : list string) (x : string) : bool :=
  existsb (String.eqb x) l.

(** ** Objects used as maps, in enumeration order *)

Section Obj.
Context {V : Type}.

Definition obj := list (string * V).

(** [o[k]] *)
Fixpoint obj_get (k : string) (o : obj) : option V :=
  match o with
  | [] => None
  | (k', v) :: rest => if String.eqb k' k then Some v else obj_get k rest
  end.

(** [o[k] = v]: an existing key keeps its place, a new one goes last. *)
Fixpoint obj_set (k : string) (v : V) (o : obj) : obj :=
  match o with
  | [] => [(k, v)]
  | (k', v') :: rest =>
      if String.eqb k' k then (k', v) :: rest
      else (k', v') :: obj_set k v rest
  end.

(** [delete o[k]] *)
Fixpoint obj_delete (k : string) (o : obj) : obj :=
  match o with
  | [] => []
  | (k', v') :: rest =>
      if String.eqb k' k then obj_delete k rest
      else (k', v') :: obj_delete k rest
  end.

Definition obj_keys (o : obj) : list string := map fst o.
Definition obj_values (o : obj) : list V := map snd o.
End Obj.

Arguments obj : clear implicits.

(** ** Data model *)

(** The object built by [addConjunct]. *)
Record conjunct := Conjunct {
  c_key : string;
  c_operator : option string;
  c_values : list string;
  c_id : string;
  c_string : string
}.

#[global] Instance conjunct_eq_dec : EqDecision conjunct.
Proof. solve_decision. Defined.

(** One entry of [matchExpressions], in the API format. *)
Record expression := Expression {
  e_key : string;
  e_operator : option string;
  e_values : list string
}.

(** The [selector] argument of the constructor.  [matchLabels] and
    [matchExpressions] are [None] when the property is absent; [fields] are
    the own properties seen by the legacy reading, with [None] for [null]. *)
Record selector_json := SelectorJson {
  matchLabels : option (list (string * string));
  matchExpressions : option (list expression);
  fields : list (string * option string)
}.

Record LabelSelector_t := Selector {
  _conjuncts : obj conjunct;
  _emptySelectsAll : bool
}.

Definition _OPERATOR_MAP : obj string :=
  [("In", "in"); ("NotIn", "not in"); ("Exists", "exists");
   ("DoesNotExist", "does not exist")].

Definition _REVERSE_OPERATOR_MAP : obj string :=
  [("in", "In"); ("not in", "NotIn"); ("exists", "Exists");
   ("does not exist", "DoesNotExist")].

(** [table[v]] *)
Definition table_get (table : obj string) (v : option string) : option string :=
  obj_get (js_to_string v) table.

(** ** Ids and display strings *)

Definition _getIdForConjunct
    (key : string) (operator : option string) (values : list string) : string :=
  let id := key +:+ "-" +:+ js_to_string operator in
  (* [values] is an array, hence truthy *)
  id +:+ "-" +:+ join "," values.

(** The text made of two double-quote characters. *)
Definition two_quotes : string :=
  let q := ascii_of_nat 34 in String q (String q EmptyString).

(** The loop of [_getStringForConjunct] over [values]. *)
Fixpoint values_string (values : list string) : string :=
  match values with
  | [] => ""
  | v :: rest =>
      (if String.eqb v "" then two_quotes else v)
      +:+ (match rest with [] => "" | _ => ", " end)
      +:+ values_string rest
  end.

Definition _getStringForConjunct
    (key : string) (operator : option string) (values : list string) : string :=
  if loose_eq operator "exists" then key +:+ " exists"
  else if loose_eq operator "does not exist" then key +:+ " does not exist"
  else
    (if loose_eq operator "not in" then key +:+ " not" else key)
    +:+ " in (" +:+ values_string values +:+ ")".

(** ** Mutation *)

Definition set_conjuncts (this : LabelSelector_t) (o : obj conjunct) : LabelSelector_t :=
  {| _conjuncts := o; _emptySelectsAll := _emptySelectsAll this |}.

Definition make_conjunct
    (key : string) (operator : option string) (values : list string) : conjunct :=
  {| c_key := key; c_operator := operator; c_values := values;
     c_id := _getIdForConjunct key operator values;
     c_string := _getStringForConjunct key operator values |}.

Definition addConjunct (this : LabelSelector_t)
    (key : string) (operator : option string) (values : list string)
  : LabelSelector_t * conjunct :=
  let conjunct := make_conjunct key operator values in
  (set_conjuncts this (obj_set (c_id conjunct) conjunct (_conjuncts this)),
   conjunct).

(** The argument is a conjunct object or a raw id.  A string has no [id]
    property; an object whose [id] is falsy is used as a property name
    itself, which is "[object Object]". *)
Definition removeConjunct (this : LabelSelector_t) (arg : conjunct + string)
  : LabelSelector_t :=
  match arg with
  | inl c =>
      if truthy (Some (c_id c))
      then set_conjuncts this (obj_delete (c_id c) (_conjuncts this))
      else set_conjuncts this (obj_delete "[object Object]" (_conjuncts this))
  | inr id => set_conjuncts this (obj_delete id (_conjuncts this))
  end.

Definition clearConjuncts (this : LabelSelector_t) : LabelSelector_t :=
  set_conjuncts this [].

Definition isEmpty (this : LabelSelector_t) : bool :=
  match _conjuncts this with
  | [] => true
  | _ :: _ => false
  end.

(** ** Construction *)

(** [addConjunct] called for its effect on the instance. *)
Definition add (this : LabelSelector_t)
    (key : string) (operator : option string) (values : list string) : LabelSelector_t :=
  fst (addConjunct this key operator values).

(** The three callbacks of the constructor: for an entry of [matchLabels],
    for an entry of [matchExpressions], and for a property of a legacy
    description ([details] is a string, or [null]). *)
Definition add_matchLabel (this : LabelSelector_t) (entry : string * string) :=
  add this (fst entry) (Some "in") [snd entry].

Definition add_matchExpression (this : LabelSelector_t) (e : expression) :=
  add this (e_key e) (table_get _OPERATOR_MAP (e_operator e)) (e_values e).

Definition add_field (this : LabelSelector_t) (entry : string * option string) :=
  match snd entry with
  | Some details => add this (fst entry) (Some "in") [details]
  | None => add this (fst entry) (Some "exists") []
  end.

(** Truthiness of a property that is absent or holds an object. *)
Definition present {A} (v : option A) : bool :=
  match v with
  | Some _ => true
  | None => false
  end.

(** [angular.forEach] over a value that may be absent. *)
Definition forEach {A} (f : LabelSelector_t -> A -> LabelSelector_t)
    (items : option (list A)) (this : LabelSelector_t) : LabelSelector_t :=
  match items with
  | Some l => fold_left f l this
  | None => this
  end.

(** The constructor; [selector] is [None] when the argument is missing. *)
Definition LabelSelector (selector : option selector_json) (emptySelectsAll : bool)
  : LabelSelector_t :=
  let this := {| _conjuncts := []; _emptySelectsAll := emptySelectsAll |} in
  match selector with
  | None => this
  | Some selector =>
      if present (matchLabels selector) || present (matchExpressions selector)
      then forEach add_matchExpression (matchExpressions selector)
             (forEach add_matchLabel (matchLabels selector) this)
      else forEach add_field (Some (fields selector)) this
  end.

(** ** Matching *)

(** A resource: [labels] and [metadata] are [None] when the property is
    absent or [null]; so is [metadata_labels]. *)
Record metadata_t := Metadata {
  metadata_labels : option (gmap string string)
}.

Record resource_t := Resource {
  labels : option (gmap string string);
  metadata : option metadata_t
}.

(** [x || {}] for a label mapping. *)
Definition or_empty (x : option (gmap string string)) : gmap string string :=
  match x with
  | Some l => l
  | None => ∅
  end.

(** Lines 104 to 107: the label mapping that [matches] evaluates. *)
Definition labels_of (resource : resource_t) : gmap string string :=
  let labels0 := or_empty (labels resource) in
  match metadata resource with
  | Some m => or_empty (metadata_labels m)
  | None => labels0
  end.

(** The loop of the "in" case: the final value of [found]. *)
Fixpoint in_loop (label : option string) (values : list string) : bool :=
  match values with
  | [] => false
  | v :: rest => if loose_eq label v then true else in_loop label rest
  end.

(** The loop of the "not in" case: the final value of [keep]. *)
Fixpoint not_in_loop (label : option string) (values : list string) : bool :=
  match values with
  | [] => true
  | v :: rest => if negb (loose_eq label v) then not_in_loop label rest else false
  end.

(** The body of the loop of [matches] for one conjunct: [false] when the
    body executes [return false], [true] when it goes on to the next
    conjunct.  An operator that is none of the four cases falls through. *)
Definition satisfied (lbls : gmap string string) (conjunct : conjunct) : bool :=
  let label := lbls !! c_key conjunct in
  if loose_eq (c_operator conjunct) "exists" then
    if negb (truthy label) && negb (is_empty_string label) then false else true
  else if loose_eq (c_operator conjunct) "does not exist" then
    if truthy label || is_empty_string label then false else true
  else if loose_eq (c_operator conjunct) "in" then
    let found :=
      if truthy label || is_empty_string label
      then in_loop label (c_values conjunct) else false in
    if negb found then false else true
  else if loose_eq (c_operator conjunct) "not in" then
    let keep :=
      if truthy label then not_in_loop label (c_values conjunct) else true in
    if negb keep then false else true
  else true.

(** The resource is [None] when it is [null] or [undefined]. *)
Definition matches (this : LabelSelector_t) (resource : option resource_t) : bool :=
  match resource with
  | None => false
  | Some resource =>
      if isEmpty this then _emptySelectsAll this
      else
        let lbls := labels_of resource in
        forallb (fun entry => satisfied lbls (snd entry)) (_conjuncts this)
  end.

(** [select] on an array of resources. *)
Definition select (this : LabelSelector_t) (resources : list resource_t)
  : list resource_t :=
  List.filter (fun r => matches this (Some r)) resources.

(** ** Lookup helpers *)

Definition hasConjunct (this : LabelSelector_t) (conjunct : conjunct) : bool :=
  present (obj_get
    (_getIdForConjunct (c_key conjunct) (c_operator conjunct) (c_values conjunct))
    (_conjuncts this)).

Definition findConjunctsMatching (this : LabelSelector_t)
    (operator : option string) (key : string) : obj conjunct :=
  List.filter
    (fun entry =>
       strict_eq (c_operator (snd entry)) operator
       && String.eqb (c_key (snd entry)) key)
    (_conjuncts this).

(** ** Subsumption *)

(** lodash's [baseIntersection] for two arrays: the values of [array], each
    taken once and in order of first occurrence, that [other] includes;
    [result] is the array built so far. *)
Fixpoint baseIntersection (result array other : list string) : list string :=
  match array with
  | [] => result
  | value :: rest =>
      if negb (includes result value) && includes other value
      then baseIntersection (result ++ [value]) rest other
      else baseIntersection result rest other
  end.

Definition intersection (array other : list string) : list string :=
  baseIntersection [] array other.

(** [_.isEmpty] on an object. *)
Definition _isEmpty {V} (o : obj V) : bool :=
  match o with
  | [] => true
  | _ :: _ => false
  end.

(** [_.every] on an object: the predicate holds of every value. *)
Definition _every {V} (o : obj V) (f : V -> bool) : bool :=
  forallb (fun entry => f (snd entry)) o.

(** The callback that [covers] passes to [_.every]: whether [selector]
    accounts for [conjunct]. *)
Definition covered (selector : LabelSelector_t) (conjunct : conjunct) : bool :=
  if hasConjunct selector conjunct then true
  else if loose_eq (c_operator conjunct) "exists" then
    negb (_isEmpty (findConjunctsMatching selector (Some "in") (c_key conjunct)))
  else if loose_eq (c_operator conjunct) "does not exist" then false
  else if loose_eq (c_operator conjunct) "in" then
    let inConjuncts := findConjunctsMatching selector (Some "in") (c_key conjunct) in
    if _isEmpty inConjuncts then false
    else
      _every inConjuncts (fun inConjunct =>
        Nat.eqb (length (c_values inConjunct))
                (length (intersection (c_values inConjunct) (c_values conjunct))))
  else if loose_eq (c_operator conjunct) "not in" then
    let notInConjuncts :=
      findConjunctsMatching selector (Some "not in") (c_key conjunct) in
    if _isEmpty notInConjuncts then false
    else
      _every notInConjuncts (fun notInConjunct =>
        Nat.eqb (length (c_values conjunct))
                (length (intersection (c_values notInConjunct) (c_values conjunct))))
  else true.

Definition covers (this selector : LabelSelector_t) : bool :=
  if isEmpty this then false
  else _every (_conjuncts this) (covered selector).

(** ** Export *)

(** The body of the loop of [exportJSON]: the expression pushed for one
    entry of the collection.  An operator missing from
    [_REVERSE_OPERATOR_MAP] gives [undefined], which the text leaves out. *)
Definition export_entry (entry : string * conjunct) : expression :=
  {| e_key := c_key (snd entry);
     e_operator := table_get _REVERSE_OPERATOR_MAP (c_operator (snd entry));
     e_values := c_values (snd entry) |}.

(** The value that [exportJSON] hands to [JSON.stringify]: the list under
    [matchExpressions], in enumeration order. *)
Definition exportJSON (this : LabelSelector_t) : list expression :=
  map export_entry (_conjuncts this).

(** Reading the exported text back as a selector description. *)
Definition parse_export (exported : list expression) : selector_json :=
  {| matchLabels := None; matchExpressions := Some exported; fields := [] |}.

(** ** Sequences of calls on one instance *)

Inductive call :=
| AddConjunct (key : string) (operator : option string) (values : list string)
| RemoveConjunct (arg : conjunct + string)
| ClearConjuncts.

Definition step (this : LabelSelector_t) (c : call) : LabelSelector_t :=
  match c with
  | AddConjunct key operator values => add this key operator values
  | RemoveConjunct arg => removeConjunct this arg
  | ClearConjuncts => clearConjuncts this
  end.

Definition run (calls : list call) (this : LabelSelector_t) : LabelSelector_t :=
  fold_left step calls this.

(** The [{key, operator, values}] tuples held by a selector, in
    enumeration order. *)
Definition tuples (this : LabelSelector_t)
  : list (string * option string * list string) :=
  map (fun entry =>
         (c_key (snd entry), c_operator (snd entry), c_values (snd entry)))
      (_conjuncts this).

(** The operators of the data model, in their internal spelling. *)
Definition known_operator (operator : option string) : bool :=
  present (table_get _REVERSE_OPERATOR_MAP operator).

(** ** Vocabulary of the statements *)

(** An entry is stored under the id of its conjunct, and the derived fields
    of the conjunct are those of its key, operator and values. *)
Definition entry_ok (e : string * conjunct) : Prop :=
  fst e = c_id (snd e)
  /\ snd e = make_conjunct (c_key (snd e)) (c_operator (snd e)) (c_values (snd e)).

(** The invariant of the collection: distinct keys, each entry in order. *)
Definition well_keyed (o : obj conjunct) : Prop :=
  NoDup (obj_keys o) /\ Forall entry_ok o.

(** The number of entries stored under a key. *)
Definition entries_under {V} (k : string) (o : obj V) : nat :=
  length (List.filter (fun e => String.eqb (fst e) k) o).

(** A resource that carries its labels in its own [labels] property. *)
Definition flat_resource (lbls : gmap string string) : resource_t :=
  {| labels := Some lbls; metadata := None |}.

(** Whether the character occurs in the string. *)
Fixpoint occurs (c : ascii) (s : string) : bool :=
  match s with
  | EmptyString => false
  | String c' s' => Ascii.eqb c' c || occurs c s'
  end.

(** Label values without a comma, as the program assumes of them. *)
Definition comma_free (s : string) : Prop := occurs "," s = false.

(** The selector with the single conjunct [(key, operator, values)]. *)
Definition single (key operator : string) (values : list string) : LabelSelector_t :=
  add (LabelSelector None false) key (Some operator) values.

(** The selector built from the exported text. *)
Definition reparse (this : LabelSelector_t) (emptySelectsAll : bool) : LabelSelector_t :=
  LabelSelector (Some (parse_export (exportJSON this))) emptySelectsAll.

(** The operator is one of the four internal names, or [undefined]. *)
Definition exportable_operator (operator : option string) : bool :=
  match operator with
  | Some _ => known_operator operator
  | None => true
  end.

(** Every conjunct of the selector has one of the four operators, or
    none. *)
Definition exportable_operators (this : LabelSelector_t) : bool :=
  forallb (fun entry => exportable_operator (c_operator (snd entry)))
    (_conjuncts this).

(** The names of the members of [Object.prototype] (ECMAScript, with its
    annex B): a lookup [o[name]] on a plain object [o] without such a
    property of its own gives the inherited member. *)
Definition object_prototype_names : list string :=
  ["constructor"; "hasOwnProperty"; "isPrototypeOf"; "propertyIsEnumerable";
   "toLocaleString"; "toString"; "valueOf"; "__proto__";
   "__defineGetter__"; "__defineSetter__"; "__lookupGetter__";
   "__lookupSetter__"].

Definition inherited_name (name : string) : bool :=
  includes object_prototype_names name.

(** No operator stored in the selector, read as a property name, is the
    name of an inherited member. *)
Definition own_operators (this : LabelSelector_t) : bool :=
  forallb (fun entry => negb (inherited_name (js_to_string (c_operator (snd entry)))))
    (_conjuncts this).

(** [select] on an array whose entries may be [null]: [_.filter] with
    [matches] as the predicate. *)
Definition select_array (this : LabelSelector_t)
    (resources : list (option resource_t)) : list (option resource_t) :=
  List.filter (matches this) resources.

(** [select] on anything that is not an array: [_.pickBy] with [matches] as
    the predicate, on an object in enumeration order. *)
Definition select_map (this : LabelSelector_t)
    (resources : obj (option resource_t)) : obj (option resource_t) :=
  List.filter (fun entry => matches this (snd entry)) resources.

(** The conjunct that the constructor adds for a property of a legacy
    description. *)
Definition field_conjunct (entry : string * option string) : conjunct :=
  match snd entry with
  | Some details => make_conjunct (fst entry) (Some "in") [details]
  | None => make_conjunct (fst entry) (Some "exists") []
  end.


(** The entry of [matchExpressions] that says what an entry of
    [matchLabels] says. *)
Definition label_expression (entry : string * string) : expression :=
  {| e_key := fst entry; e_operator := Some "In"; e_values := [snd entry] |}.

(** The list under a property that may be absent. *)
Definition entries_of {A} (items : option (list A)) : list A :=
  match items with
  | Some l => l
  | None => []
  end.

(** No entry of [B] sits under the id of a conjunct of [A] with another
    key, operator or value list. *)
Definition ids_exact (A B : LabelSelector_t) : Prop :=
  forall a b,
    a ∈ _conjuncts A -> b ∈ _conjuncts B ->
    fst b = _getIdForConjunct (c_key (snd a)) (c_operator (snd a)) (c_values (snd a)) ->
    c_key (snd b) = c_key (snd a)
    /\ c_operator (snd b) = c_operator (snd a)
    /\ c_values (snd b) = c_values (snd a).

(** How the display string shows one value. *)
Definition display_value (v : string) : string :=
  if String.eqb v "" then two_quotes else v.

(** The operator of the expression is one of the four API names. *)
Definition api_operator (e : expression) : bool :=
  present (table_get _OPERATOR_MAP (e_operator e)).

(** The conjunct that the constructor adds for an entry of
    [matchExpressions]. *)
Definition expression_conjunct (e : expression) : conjunct :=
  make_conjunct (e_key e) (table_get _OPERATOR_MAP (e_operator e)) (e_values e).

(** ** Concrete selectors *)

(** The selector of [matchExpressions: [{key: "env", operator: "NotIn",
    values: ["prod"]}]]. *)
Definition env_not_in_prod : LabelSelector_t :=
  LabelSelector
    (Some {| matchLabels := None;
             matchExpressions :=
               Some [ {| e_key := "env"; e_operator := Some "NotIn";
                         e_values := ["prod"] |} ];
             fields := [] |})
    false.

(** The conjunct that [env_not_in_prod] holds. *)
Definition env_not_in_prod_conjunct : conjunct :=
  make_conjunct "env" (Some "not in") ["prod"].

(** The selector of the legacy description [{app: "web"}], with
    [emptySelectsAll] false, and the conjunct it holds. *)
Definition app_web : LabelSelector_t :=
  LabelSelector
    (Some {| matchLabels := None; matchExpressions := None;
             fields := [("app", Some "web")] |})
    false.

Definition app_web_conjunct : conjunct := make_conjunct "app" (Some "in") ["web"].

(** The selector of [{app: "web", tier: "frontend"}]. *)
Definition app_web_tier : LabelSelector_t :=
  LabelSelector
    (Some {| matchLabels := None; matchExpressions := None;
             fields := [("app", Some "web"); ("tier", Some "frontend")] |})
    false.

(** A description with [matchLabels] and [matchExpressions]. *)
Definition web_selector : selector_json :=
  {| matchLabels := Some [("app", "web")];
     matchExpressions :=
       Some [ {| e_key := "env"; e_operator := Some "NotIn";
                 e_values := ["prod"; "staging"] |};
              {| e_key := "tier"; e_operator := Some "Exists"; e_values := [] |};
              {| e_key := "legacy"; e_operator := Some "DoesNotExist";
                 e_values := [] |} ];
     fields := [] |}.

(** Calls made on the selector of [web_selector]; the second removes the
    "exists" conjunct by its id. *)
Definition web_calls : list call :=
  [AddConjunct "zone" (Some "in") ["a"; "b"];
   RemoveConjunct (inr "tier-exists-");
   AddConjunct "app" (Some "in") ["web"]].

(** * Properties *)

(** ** Objects *)

Section ObjFacts.
Context {V : Type}.
Implicit Types (o : obj V) (k : string) (v : V) (e : string * V).

Lemma obj_get_Some k v o : obj_get k o = Some v -> (k, v) ∈ o.
Proof.
  induction o as [|[k' v'] o IH]; simpl; [done|].
  destruct (String.eqb_spec k' k) as [->|Hne].
  - intros [= ->]. apply elem_of_cons; by left.
  - intros H. apply elem_of_cons; right; auto.
Qed.

Lemma obj_get_None k o : obj_get k o = None <-> k ∉ obj_keys o.
Proof.
  unfold obj_keys. induction o as [|[k' v'] o IH]; simpl.
  - split; [intros _; apply not_elem_of_nil | done].
  - rewrite not_elem_of_cons.
    destruct (String.eqb_spec k' k) as [->|Hne]; [intuition (subst; auto; congruence)|].
    rewrite IH. intuition (subst; auto; congruence).
Qed.

Lemma obj_get_NoDup k v o :
  NoDup (obj_keys o) -> (k, v) ∈ o -> obj_get k o = Some v.
Proof.
  unfold obj_keys. induction o as [|[k' v'] o IH]; simpl.
  - intros _ H. by apply elem_of_nil in H.
  - rewrite NoDup_cons. intros [Hk Hnd] [H|H]%elem_of_cons.
    + injection H as -> ->. by rewrite String.eqb_refl.
    + destruct (String.eqb_spec k' k) as [->|Hne]; [|auto].
      exfalso. apply Hk. change k with (fst (k, v)).
      by apply (list_elem_of_fmap_2 fst) in H.
Qed.

Lemma obj_set_fresh k v o : k ∉ obj_keys o -> obj_set k v o = o ++ [(k, v)].
Proof.
  unfold obj_keys. induction o as [|[k' v'] o IH]; simpl; [done|].
  rewrite not_elem_of_cons. intros [Hne Hk].
  destruct (String.eqb_spec k' k) as [->|_]; [done|]. by rewrite IH.
Qed.

Lemma elem_of_obj_set e k v o : e ∈ obj_set k v o -> e = (k, v) \/ e ∈ o.
Proof.
  induction o as [|[k' v'] o IH]; simpl.
  - intros ->%list_elem_of_singleton. by left.
  - destruct (String.eqb_spec k' k) as [->|Hne].
    + intros [->|H]%elem_of_cons; [by left|]. right. apply elem_of_cons; by right.
    + intros [->|H]%elem_of_cons.
      * right. apply elem_of_cons; by left.
      * destruct (IH H) as [->|H']; [by left|]. right. apply elem_of_cons; by right.
Qed.

Lemma obj_set_elem k v o : (k, v) ∈ obj_set k v o.
Proof.
  induction o as [|[k' v'] o IH]; simpl.
  - by apply list_elem_of_singleton.
  - destruct (String.eqb_spec k' k) as [->|Hne]; apply elem_of_cons; auto.
Qed.

Lemma obj_keys_set_elem k' k v o :
  k' ∈ obj_keys (obj_set k v o) <-> k' = k \/ k' ∈ obj_keys o.
Proof.
  unfold obj_keys. induction o as [|[k0 v0] o IH]; simpl.
  - rewrite list_elem_of_singleton. split; [by left|].
    intros [H|H]; [done|]. by apply elem_of_nil in H.
  - destruct (String.eqb_spec k0 k) as [->|Hne]; simpl;
      rewrite !elem_of_cons; [intuition (subst; auto; congruence)|].
    rewrite IH. intuition (subst; auto; congruence).
Qed.

Lemma obj_set_NoDup k v o : NoDup (obj_keys o) -> NoDup (obj_keys (obj_set k v o)).
Proof.
  induction o as [|[k' v'] o IH]; simpl.
  - intros _. apply NoDup_singleton.
  - unfold obj_keys in *. simpl. rewrite NoDup_cons. intros [Hk Hnd].
    destruct (String.eqb_spec k' k) as [->|Hne]; simpl.
    + by apply NoDup_cons.
    + apply NoDup_cons. split; [|auto].
      intros [H|H]%obj_keys_set_elem; [done|by apply Hk].
Qed.

Lemma obj_get_set k v o : obj_get k (obj_set k v o) = Some v.
Proof.
  induction o as [|[k' v'] o IH]; simpl.
  - by rewrite String.eqb_refl.
  - destruct (String.eqb_spec k' k) as [->|Hne]; simpl.
    + by rewrite String.eqb_refl.
    + by destruct (String.eqb_spec k' k).
Qed.

Lemma obj_set_set k v v' o : obj_set k v (obj_set k v' o) = obj_set k v o.
Proof.
  induction o as [|[k0 v0] o IH]; simpl.
  - by rewrite String.eqb_refl.
  - destruct (String.eqb_spec k0 k) as [->|Hne]; simpl.
    + by rewrite String.eqb_refl.
    + destruct (String.eqb_spec k0 k); [done|]. by rewrite IH.
Qed.

Lemma elem_of_obj_delete e k o : e ∈ obj_delete k o <-> e ∈ o /\ fst e <> k.
Proof.
  induction o as [|[k' v'] o IH]; simpl.
  - split; [intros H|intros [H _]]; by apply elem_of_nil in H.
  - destruct (String.eqb_spec k' k) as [->|Hne]; rewrite ?elem_of_cons, IH.
    + split; [intuition (subst; auto; congruence)|]. intros [[->|H] Hk]; [done|auto].
    + split; [|intuition (subst; auto; congruence)]. intros [->|[H Hk]]; auto.
Qed.

Lemma obj_keys_delete_elem k' k o :
  k' ∈ obj_keys (obj_delete k o) -> k' ∈ obj_keys o.
Proof.
  unfold obj_keys. intros ([k0 v0] & -> & H)%list_elem_of_fmap.
  apply elem_of_obj_delete in H as [H _].
  by apply (list_elem_of_fmap_2 fst) in H.
Qed.

Lemma obj_delete_NoDup k o : NoDup (obj_keys o) -> NoDup (obj_keys (obj_delete k o)).
Proof.
  induction o as [|[k' v'] o IH]; simpl; [done|].
  unfold obj_keys in *. simpl. rewrite NoDup_cons. intros [Hk Hnd].
  destruct (String.eqb_spec k' k) as [->|Hne]; simpl; [auto|].
  apply NoDup_cons. split; [|auto].
  intros H. by apply Hk, (obj_keys_delete_elem _ k).
Qed.
End ObjFacts.

(** ** The id invariant of the conjunct collection *)

Lemma entry_ok_make key operator values :
  entry_ok (c_id (make_conjunct key operator values), make_conjunct key operator values).
Proof. by split. Qed.

Lemma well_keyed_nil : well_keyed [].
Proof. split; [apply NoDup_nil_2 | apply Forall_nil_2]. Qed.

Lemma well_keyed_add this key operator values :
  well_keyed (_conjuncts this) ->
  well_keyed (_conjuncts (add this key operator values)).
Proof.
  intros [Hnd Hok]. split; simpl.
  - by apply obj_set_NoDup.
  - apply Forall_forall. intros e [->|He]%elem_of_obj_set.
    + apply entry_ok_make.
    + by apply (proj1 (Forall_forall _ _) Hok).
Qed.

Lemma well_keyed_delete id o : well_keyed o -> well_keyed (obj_delete id o).
Proof.
  intros [Hnd Hok]. split.
  - by apply obj_delete_NoDup.
  - apply Forall_forall. intros e [He _]%elem_of_obj_delete.
    by apply (proj1 (Forall_forall _ _) Hok).
Qed.

Lemma well_keyed_remove this arg :
  well_keyed (_conjuncts this) -> well_keyed (_conjuncts (removeConjunct this arg)).
Proof.
  intros H. destruct arg as [c|id]; simpl; [|by apply well_keyed_delete].
  destruct (negb _); simpl; by apply well_keyed_delete.
Qed.

Lemma well_keyed_step this c :
  well_keyed (_conjuncts this) -> well_keyed (_conjuncts (step this c)).
Proof.
  destruct c; simpl; intros H.
  - by apply well_keyed_add.
  - by apply well_keyed_remove.
  - apply well_keyed_nil.
Qed.

Lemma well_keyed_fold {A} (f : LabelSelector_t -> A -> LabelSelector_t) l :
  (forall this a, well_keyed (_conjuncts this) -> well_keyed (_conjuncts (f this a))) ->
  forall this, well_keyed (_conjuncts this) -> well_keyed (_conjuncts (fold_left f l this)).
Proof. intros Hf. induction l as [|a l IH]; simpl; auto. Qed.

Lemma well_keyed_forEach {A} (f : LabelSelector_t -> A -> LabelSelector_t) items this :
  (forall this a, well_keyed (_conjuncts this) -> well_keyed (_conjuncts (f this a))) ->
  well_keyed (_conjuncts this) -> well_keyed (_conjuncts (forEach f items this)).
Proof. intros Hf H. destruct items; simpl; [by apply well_keyed_fold | done]. Qed.

Lemma well_keyed_LabelSelector selector emptySelectsAll :
  well_keyed (_conjuncts (LabelSelector selector emptySelectsAll)).
Proof.
  unfold LabelSelector. destruct selector as [sel|]; [|apply well_keyed_nil].
  destruct (_ || _).
  - apply well_keyed_forEach.
    { intros. by apply well_keyed_add. }
    apply well_keyed_forEach; [|apply well_keyed_nil].
    intros. by apply well_keyed_add.
  - apply well_keyed_forEach; [|apply well_keyed_nil].
    intros this [k [d|]] H; by apply well_keyed_add.
Qed.

Lemma well_keyed_run calls this :
  well_keyed (_conjuncts this) -> well_keyed (_conjuncts (run calls this)).
Proof. apply well_keyed_fold. intros. by apply well_keyed_step. Qed.

(** Every selector that the program can build satisfies the invariant. *)
Lemma well_keyed_reachable selector emptySelectsAll calls :
  well_keyed (_conjuncts (run calls (LabelSelector selector emptySelectsAll))).
Proof. apply well_keyed_run, well_keyed_LabelSelector. Qed.

Lemma well_keyed_ids_NoDup o : well_keyed o -> NoDup (map c_id (obj_values o)).
Proof.
  intros [Hnd Hok]. unfold obj_values, obj_keys in *.
  assert (map c_id (map snd o) = map fst o) as ->; [|done].
  clear Hnd. induction Hok as [|e o [He _] _ IH]; simpl; [reflexivity|].
  by rewrite IH, He.
Qed.

Lemma entries_under_absent {V} k (o : obj V) :
  k ∉ obj_keys o -> entries_under k o = 0.
Proof.
  unfold entries_under, obj_keys. induction o as [|[k' v'] o IH]; simpl; [done|].
  rewrite not_elem_of_cons. intros [Hne Hk].
  destruct (String.eqb_spec k' k); [congruence|auto].
Qed.

Lemma entries_under_present {V} k (o : obj V) :
  NoDup (obj_keys o) -> k ∈ obj_keys o -> entries_under k o = 1.
Proof.
  unfold entries_under, obj_keys. induction o as [|[k' v'] o IH]; simpl.
  - intros _ H. by apply elem_of_nil in H.
  - rewrite NoDup_cons. intros [Hk Hnd] Hin.
    destruct (String.eqb_spec k' k) as [->|Hne]; simpl.
    + f_equal. by apply (entries_under_absent k o).
    + apply elem_of_cons in Hin as [->|Hin]; [done|auto].
Qed.

(** C8: two calls of [addConjunct] with the same arguments leave the
    collection as one call does, with exactly one entry under the derived
    id, which holds the conjunct of the call; and after the constructor and
    any sequence of [addConjunct], [removeConjunct] and [clearConjuncts]
    the keys of the collection are pairwise distinct, every entry is stored
    under the [id] of its conjunct, and so the conjunct ids are pairwise
    distinct. *)
Theorem addConjunct_twice_one_entry
    (selector : option selector_json) (emptySelectsAll : bool)
    (calls : list call)
    (key : string) (operator : option string) (values : list string) :
  let this := run calls (LabelSelector selector emptySelectsAll) in
  let id := _getIdForConjunct key operator values in
  let twice := add (add this key operator values) key operator values in
  twice = add this key operator values
  /\ entries_under id (_conjuncts twice) = 1
  /\ obj_get id (_conjuncts twice) = Some (make_conjunct key operator values)
  /\ NoDup (obj_keys (_conjuncts this))
  /\ Forall (fun e => fst e = c_id (snd e)) (_conjuncts this)
  /\ NoDup (map c_id (obj_values (_conjuncts this))).
Proof.
  intros this id twice.
  pose proof (well_keyed_reachable selector emptySelectsAll calls) as Hwk.
  fold this in Hwk.
  assert (twice = add this key operator values) as Heq.
  { unfold twice, add, addConjunct, set_conjuncts. simpl. f_equal.
    apply obj_set_set. }
  split; [done|]. rewrite Heq. simpl.
  repeat split.
  - apply entries_under_present.
    + apply obj_set_NoDup, Hwk.
    + apply obj_keys_set_elem. by left.
  - apply obj_get_set.
  - apply Hwk.
  - eapply Forall_impl; [apply Hwk|]. by intros e [He _].
  - by apply well_keyed_ids_NoDup.
Qed.

(** ** Matching *)

Lemma forallb_elem_of {A} (f : A -> bool) (l : list A) :
  forallb f l = true <-> forall x, x ∈ l -> f x = true.
Proof.
  rewrite forallb_forall. split; intros H x Hx; apply H; by apply list_elem_of_In.
Qed.

Lemma isEmpty_nil this : isEmpty this = true <-> _conjuncts this = [].
Proof. unfold isEmpty. destruct (_conjuncts this); split; congruence. Qed.

Lemma emptySelectsAll_add this key operator values :
  _emptySelectsAll (add this key operator values) = _emptySelectsAll this.
Proof. reflexivity. Qed.

Lemma emptySelectsAll_remove this arg :
  _emptySelectsAll (removeConjunct this arg) = _emptySelectsAll this.
Proof. destruct arg as [c|id]; simpl; [|done]. by destruct (negb _). Qed.

Lemma emptySelectsAll_step this c :
  _emptySelectsAll (step this c) = _emptySelectsAll this.
Proof. destruct c; simpl; auto using emptySelectsAll_remove. Qed.

Lemma emptySelectsAll_fold {A} (f : LabelSelector_t -> A -> LabelSelector_t) l :
  (forall this a, _emptySelectsAll (f this a) = _emptySelectsAll this) ->
  forall this, _emptySelectsAll (fold_left f l this) = _emptySelectsAll this.
Proof.
  intros Hf. induction l as [|a l IH]; simpl; [done|].
  intros this. by rewrite IH, Hf.
Qed.

Lemma emptySelectsAll_LabelSelector selector emptySelectsAll :
  _emptySelectsAll (LabelSelector selector emptySelectsAll) = emptySelectsAll.
Proof.
  unfold LabelSelector. destruct selector as [sel|]; [|done].
  destruct (_ || _); unfold forEach.
  - destruct (matchExpressions sel), (matchLabels sel);
      rewrite ?emptySelectsAll_fold; done.
  - rewrite emptySelectsAll_fold; [done|]. by intros this [k [d|]].
Qed.

(** The flag given to the constructor is the flag of the instance for the
    rest of its life. *)
Lemma emptySelectsAll_reachable selector emptySelectsAll calls :
  _emptySelectsAll (run calls (LabelSelector selector emptySelectsAll))
  = emptySelectsAll.
Proof.
  unfold run. rewrite emptySelectsAll_fold.
  - apply emptySelectsAll_LabelSelector.
  - apply emptySelectsAll_step.
Qed.

Lemma matches_nonempty this resource :
  isEmpty this = false ->
  matches this (Some resource) = true <->
  forall e, e ∈ _conjuncts this -> satisfied (labels_of resource) (snd e) = true.
Proof. intros H. unfold matches. rewrite H. apply forallb_elem_of. Qed.

Lemma matches_unsatisfied this resource e :
  e ∈ _conjuncts this ->
  satisfied (labels_of resource) (snd e) = false ->
  matches this (Some resource) = false.
Proof.
  intros He Hs. destruct (isEmpty this) eqn:Hemp.
  - apply isEmpty_nil in Hemp. rewrite Hemp in He. by apply elem_of_nil in He.
  - apply not_true_is_false. intros Hm.
    rewrite (matches_nonempty _ _ Hemp) in Hm. specialize (Hm e He). congruence.
Qed.

(** C5: [matches] of a [null] or [undefined] resource is [false], whatever
    the conjuncts and the flag; in particular for the selector with no
    conjunct and [emptySelectsAll] true, because the test of the resource
    comes first. *)
Theorem matches_null_resource (this : LabelSelector_t) :
  matches this None = false
  /\ matches (LabelSelector None true) None = false.
Proof. split; reflexivity. Qed.

(** C6: on a resource that is not [null], a selector whose collection is
    empty answers the [emptySelectsAll] flag that its constructor received,
    whatever calls were made on it since and whatever the resource is. *)
Theorem matches_empty_selector
    (selector : option selector_json) (emptySelectsAll : bool)
    (calls : list call) (resource : resource_t) :
  isEmpty (run calls (LabelSelector selector emptySelectsAll)) = true ->
  matches (run calls (LabelSelector selector emptySelectsAll)) (Some resource)
  = emptySelectsAll.
Proof.
  intros H. unfold matches. rewrite H. apply emptySelectsAll_reachable.
Qed.

Lemma matches_empty_selector_witness :
  isEmpty (run [AddConjunct "app" (Some "in") ["web"]; ClearConjuncts]
             (LabelSelector None true)) = true
  /\ matches (run [AddConjunct "app" (Some "in") ["web"]; ClearConjuncts]
                (LabelSelector None true))
       (Some {| labels := Some {[ "app" := "db" ]}; metadata := None |})
     = true.
Proof.
  split; [reflexivity|].
  apply (matches_empty_selector None true
           [AddConjunct "app" (Some "in") ["web"]; ClearConjuncts]).
  reflexivity.
Defined.

(** C10: when the resource has a [metadata] object, [matches] evaluates
    the conjuncts on [metadata.labels], or on the empty mapping when
    [metadata] has no labels, and the [labels] property of the resource
    itself plays no part; without [metadata] it evaluates them on
    [labels].  So the selector of [{app: "web"}] matches the resource with
    labels [{app: "web"}] and does not match that resource once it has a
    [metadata] without labels. *)
Theorem matches_metadata_labels
    (this : LabelSelector_t) (top : option (gmap string string))
    (m : metadata_t) (nested : gmap string string) :
  labels_of {| labels := top; metadata := Some m |} = or_empty (metadata_labels m)
  /\ matches this (Some {| labels := top; metadata := Some m |})
     = matches this (Some {| labels := metadata_labels m; metadata := None |})
  /\ matches this
       (Some {| labels := top; metadata := Some {| metadata_labels := Some nested |} |})
     = matches this (Some {| labels := Some nested; metadata := None |})
  /\ matches this
       (Some {| labels := top; metadata := Some {| metadata_labels := None |} |})
     = matches this (Some {| labels := Some ∅; metadata := None |})
  /\ matches this
       (Some {| labels := top; metadata := Some {| metadata_labels := Some nested |} |})
     = (if isEmpty this then _emptySelectsAll this
        else forallb (fun entry => satisfied nested (snd entry)) (_conjuncts this))
  /\ matches this
       (Some {| labels := top; metadata := Some {| metadata_labels := None |} |})
     = (if isEmpty this then _emptySelectsAll this
        else forallb (fun entry => satisfied ∅ (snd entry)) (_conjuncts this))
  /\ matches this (Some {| labels := Some nested; metadata := None |})
     = (if isEmpty this then _emptySelectsAll this
        else forallb (fun entry => satisfied nested (snd entry)) (_conjuncts this))
  /\ matches app_web
       (Some {| labels := Some {[ "app" := "web" ]}; metadata := None |}) = true
  /\ matches app_web
       (Some {| labels := Some {[ "app" := "web" ]};
                metadata := Some {| metadata_labels := None |} |}) = false
  /\ matches app_web
       (Some {| labels := Some {[ "app" := "db" ]};
                metadata := Some {| metadata_labels := Some {[ "app" := "web" ]} |} |})
     = true.
Proof.
  split; [reflexivity|]. split; [reflexivity|]. split; [reflexivity|].
  split; [reflexivity|].
  split; [unfold matches, labels_of; reflexivity|].
  split; [unfold matches, labels_of; reflexivity|].
  split; [unfold matches, labels_of; reflexivity|].
  split; [vm_compute; reflexivity|]. split; vm_compute; reflexivity.
Qed.

(** A resource with labels of its own and a [metadata] without labels is
    evaluated on the empty mapping. *)
Example matches_metadata_without_labels :
  let this := add (LabelSelector None false) "app" (Some "in") ["web"] in
  matches this (Some {| labels := Some {[ "app" := "web" ]}; metadata := None |})
  = true
  /\ matches this
       (Some {| labels := Some {[ "app" := "web" ]};
                metadata := Some {| metadata_labels := None |} |})
     = false.
Proof. split; reflexivity. Qed.

Lemma not_in_loop_false v values :
  not_in_loop (Some v) values = false <-> v ∈ values.
Proof.
  induction values as [|w values IH]; simpl.
  - split; [done|]. intros H. by apply elem_of_nil in H.
  - rewrite elem_of_cons. destruct (String.eqb_spec v w) as [->|Hne]; simpl.
    + split; auto.
    + rewrite IH. split; [auto|]. by intros [?|?].
Qed.

Lemma satisfied_not_in lbls conjunct :
  c_operator conjunct = Some "not in" ->
  satisfied lbls conjunct =
    if truthy (lbls !! c_key conjunct)
    then not_in_loop (lbls !! c_key conjunct) (c_values conjunct)
    else true.
Proof.
  intros H. unfold satisfied. rewrite H. simpl.
  destruct (truthy _); [|done]. by destruct (not_in_loop _ _).
Qed.

(** C3: for a "not in" conjunct stored in a selector, a label that is the
    empty string does not make the conjunct fail, so [matches] is true as
    soon as the other conjuncts hold; a label that is a non-empty string
    listed in the values makes the conjunct fail, and [matches] false. *)
Theorem matches_not_in_empty_label
    (this : LabelSelector_t) (resource : resource_t)
    (id : string) (conjunct : conjunct) :
  (id, conjunct) ∈ _conjuncts this ->
  c_operator conjunct = Some "not in" ->
  (labels_of resource !! c_key conjunct = Some "" ->
     satisfied (labels_of resource) conjunct = true
     /\ ((forall e, e ∈ _conjuncts this -> e <> (id, conjunct) ->
            satisfied (labels_of resource) (snd e) = true) ->
         matches this (Some resource) = true))
  /\ (forall v, labels_of resource !! c_key conjunct = Some v ->
        v <> "" -> v ∈ c_values conjunct ->
        satisfied (labels_of resource) conjunct = false
        /\ matches this (Some resource) = false).
Proof.
  intros Hin Hop. split.
  - intros Hlabel.
    assert (satisfied (labels_of resource) conjunct = true) as Hsat.
    { rewrite (satisfied_not_in _ _ Hop), Hlabel. reflexivity. }
    split; [done|]. intros Hothers.
    apply matches_nonempty.
    + unfold isEmpty. destruct (_conjuncts this); [|done].
      by apply elem_of_nil in Hin.
    + intros e He. destruct (decide (e = (id, conjunct))) as [->|Hne]; auto.
  - intros v Hlabel Hv Hval.
    assert (satisfied (labels_of resource) conjunct = false) as Hsat.
    { rewrite (satisfied_not_in _ _ Hop), Hlabel. simpl.
      destruct (String.eqb_spec v "") as [->|_]; [done|]. simpl.
      by apply not_in_loop_false. }
    split; [done|]. by apply (matches_unsatisfied this resource (id, conjunct)).
Qed.

Lemma matches_not_in_empty_label_witness :
  (c_id env_not_in_prod_conjunct, env_not_in_prod_conjunct)
    ∈ _conjuncts env_not_in_prod
  /\ c_operator env_not_in_prod_conjunct = Some "not in"
  /\ labels_of (flat_resource {[ "env" := "" ]}) !! c_key env_not_in_prod_conjunct
     = Some ""
  /\ matches env_not_in_prod (Some (flat_resource {[ "env" := "" ]})) = true.
Proof.
  assert ((c_id env_not_in_prod_conjunct, env_not_in_prod_conjunct)
            ∈ _conjuncts env_not_in_prod) as Hin.
  { vm_compute. apply list_elem_of_here. }
  assert (c_operator env_not_in_prod_conjunct = Some "not in") as Hop
    by reflexivity.
  assert (labels_of (flat_resource {[ "env" := "" ]})
            !! c_key env_not_in_prod_conjunct = Some "") as Hlabel
    by reflexivity.
  split; [exact Hin|]. split; [exact Hop|]. split; [exact Hlabel|].
  destruct (matches_not_in_empty_label env_not_in_prod
              (flat_resource {[ "env" := "" ]})
              (c_id env_not_in_prod_conjunct) env_not_in_prod_conjunct Hin Hop)
    as [Hempty _].
  destruct (Hempty Hlabel) as [_ Hmatches]. apply Hmatches.
  intros e He Hne. vm_compute in He.
  apply list_elem_of_singleton in He. contradiction.
Defined.

(** The two resources of the scenario: an empty [env] label matches, the
    label "prod" does not. *)
Example matches_not_in_scenario :
  matches env_not_in_prod (Some (flat_resource {[ "env" := "" ]})) = true
  /\ matches env_not_in_prod (Some (flat_resource {[ "env" := "prod" ]})) = false
  /\ matches env_not_in_prod
       (Some {| labels := None;
                metadata := Some {| metadata_labels := Some {[ "env" := "" ]} |} |})
     = true.
Proof. repeat split. Qed.

Example matches_app_web_scenario :
  matches app_web
    (Some (flat_resource {[ "app" := "web"; "tier" := "frontend" ]})) = true
  /\ matches app_web (Some (flat_resource {[ "app" := "db" ]})) = false
  /\ matches app_web (Some (flat_resource ∅)) = false.
Proof. repeat split. Qed.

(** The only conjunct of [app_web] holds on the labels [{app: "web"}] and
    the selector matches; once that conjunct is removed the collection is
    empty and [matches] answers the flag, which is false. *)
Lemma matches_remove_last_conjunct :
  obj_get (c_id app_web_conjunct) (_conjuncts app_web) = Some app_web_conjunct
  /\ satisfied (labels_of (flat_resource {[ "app" := "web" ]})) app_web_conjunct
     = true
  /\ matches app_web (Some (flat_resource {[ "app" := "web" ]})) = true
  /\ matches (removeConjunct app_web (inl app_web_conjunct))
       (Some (flat_resource {[ "app" := "web" ]}))
     = false.
Proof. repeat split. Qed.

(** C4, amended: removing a conjunct (by the object or by its id) from a
    selector that matches a resource leaves a selector that matches it,
    provided the collection is not left empty or [emptySelectsAll] is true;
    and adding a conjunct that does not hold on the labels of a resource
    gives a selector that does not match it, whatever the selector was. *)
Theorem matches_remove_add
    (this : LabelSelector_t) (resource : resource_t)
    (arg : conjunct + string)
    (key : string) (operator : option string) (values : list string) :
  (matches this (Some resource) = true ->
   isEmpty (removeConjunct this arg) = false \/ _emptySelectsAll this = true ->
   matches (removeConjunct this arg) (Some resource) = true)
  /\ (satisfied (labels_of resource) (make_conjunct key operator values) = false ->
      matches (add this key operator values) (Some resource) = false).
Proof.
  split.
  - intros Hm Hkeep.
    destruct (isEmpty (removeConjunct this arg)) eqn:Hemp.
    + unfold matches. rewrite Hemp, emptySelectsAll_remove.
      by destruct Hkeep as [?|?].
    + apply (matches_nonempty _ _ Hemp). intros e He.
      assert (e ∈ _conjuncts this) as He'.
      { destruct arg as [c|id]; simpl in He.
        - destruct (negb _); simpl in He; by apply elem_of_obj_delete in He as [? _].
        - by apply elem_of_obj_delete in He as [? _]. }
      assert (isEmpty this = false) as Hne.
      { unfold isEmpty. destruct (_conjuncts this); [|done].
        by apply elem_of_nil in He'. }
      by apply (matches_nonempty _ _ Hne).
  - intros Hs.
    apply (matches_unsatisfied _ _
             (c_id (make_conjunct key operator values),
              make_conjunct key operator values)); [|done].
    apply obj_set_elem.
Qed.

Lemma matches_remove_add_witness :
  (matches app_web_tier
     (Some (flat_resource {[ "app" := "web"; "tier" := "frontend" ]})) = true
   /\ isEmpty (removeConjunct app_web_tier (inl app_web_conjunct)) = false
   /\ matches (removeConjunct app_web_tier (inl app_web_conjunct))
        (Some (flat_resource {[ "app" := "web"; "tier" := "frontend" ]})) = true)
  /\ (satisfied (labels_of (flat_resource {[ "app" := "web"; "tier" := "frontend" ]}))
        (make_conjunct "env" (Some "exists") []) = false
      /\ matches (add app_web_tier "env" (Some "exists") [])
           (Some (flat_resource {[ "app" := "web"; "tier" := "frontend" ]})) = false).
Proof.
  pose proof (matches_remove_add app_web_tier
                (flat_resource {[ "app" := "web"; "tier" := "frontend" ]})
                (inl app_web_conjunct) "env" (Some "exists") []) as [Hremove Hadd].
  split.
  - split; [reflexivity|]. split; [reflexivity|].
    apply Hremove; [reflexivity | left; reflexivity].
  - split; [reflexivity|]. apply Hadd. reflexivity.
Defined.

(** ** Ids *)

Lemma append_inv_head (p a b : string) : p +:+ a = p +:+ b -> a = b.
Proof. induction p as [|c p IH]; simpl; [done|]. intros [= H]. auto. Qed.

Lemma append_eqb_head (p a b : string) :
  String.eqb (p +:+ a) (p +:+ b) = String.eqb a b.
Proof.
  induction p as [|c p IH]; simpl; [done|]. by rewrite Ascii.eqb_refl.
Qed.

Lemma comma_split (x y r1 r2 : string) :
  comma_free x -> comma_free y ->
  x +:+ "," +:+ r1 = y +:+ "," +:+ r2 -> x = y /\ r1 = r2.
Proof.
  unfold comma_free. revert y.
  induction x as [|c x IH]; intros [|d y]; simpl.
  - intros _ _ [= H]. by subst.
  - intros _ [Hd _]%orb_false_elim [= Hc _]. subst d. discriminate Hd.
  - intros [Hc _]%orb_false_elim _ [= Hd _]. subst c. discriminate Hc.
  - intros [_ Hx]%orb_false_elim [_ Hy]%orb_false_elim [= Hc H]. subst d.
    destruct (IH y Hx Hy H) as [Hxy Hr]. by subst.
Qed.

Lemma join_comma_inj (l1 l2 : list string) :
  Forall comma_free l1 -> Forall comma_free l2 ->
  length l1 = length l2 ->
  join "," l1 = join "," l2 -> l1 = l2.
Proof.
  intros H1. revert l2.
  induction H1 as [|x l1 Hx H1 IH]; intros l2 H2 Hlen Hjoin.
  - destruct l2; [done|discriminate].
  - destruct H2 as [|y l2 Hy H2]; [discriminate|].
    injection Hlen as Hlen.
    destruct l1 as [|x' l1], l2 as [|y' l2]; try discriminate.
    + simpl in Hjoin. by subst.
    + change (x +:+ "," +:+ join "," (x' :: l1)
              = y +:+ "," +:+ join "," (y' :: l2)) in Hjoin.
      apply comma_split in Hjoin as [-> Hjoin]; [|done..].
      f_equal. apply IH; auto.
Qed.

Lemma getId_inv key operator values1 values2 :
  _getIdForConjunct key operator values1 = _getIdForConjunct key operator values2 ->
  join "," values1 = join "," values2.
Proof.
  unfold _getIdForConjunct. intros H.
  apply append_inv_head in H. by apply (append_inv_head "-") in H.
Qed.

Lemma hasConjunct_add_other this key operator values conjunct :
  _getIdForConjunct (c_key conjunct) (c_operator conjunct) (c_values conjunct)
    <> _getIdForConjunct key operator values ->
  hasConjunct (add this key operator values) conjunct = hasConjunct this conjunct.
Proof.
  intros Hne. unfold hasConjunct, add, addConjunct. simpl.
  generalize dependent (_getIdForConjunct (c_key conjunct) (c_operator conjunct)
                          (c_values conjunct)).
  intros id Hne. induction (_conjuncts this) as [|[k' v'] o IH]; simpl.
  - by destruct (String.eqb_spec (_getIdForConjunct key operator values) id).
  - destruct (String.eqb_spec k' (_getIdForConjunct key operator values)) as [->|Hk];
      simpl.
    + by destruct (String.eqb_spec (_getIdForConjunct key operator values) id).
    + by destruct (String.eqb_spec k' id).
Qed.

(** Two value lists with the same values in another order and the same
    id: "a" followed by "a,a", and "a,a" followed by "a". *)
Lemma getId_reordered_values_collide :
  ["a"; "a,a"] ≡ₚ ["a,a"; "a"]
  /\ ["a"; "a,a"] <> ["a,a"; "a"]
  /\ _getIdForConjunct "k" (Some "in") ["a"; "a,a"]
     = _getIdForConjunct "k" (Some "in") ["a,a"; "a"].
Proof.
  split; [apply Permutation_swap|]. split; [discriminate|reflexivity].
Qed.

(** C9, amended: for values without a comma, two conjuncts with the same
    key and operator whose value lists are permutations of one another and
    are not the same list have different ids; a selector holding the first
    does not have the second according to [hasConjunct], and adding both
    gives two entries. *)
Theorem getId_value_order
    (key : string) (operator : option string) (values1 values2 : list string)
    (emptySelectsAll : bool) :
  Forall comma_free values1 ->
  values1 ≡ₚ values2 ->
  values1 <> values2 ->
  _getIdForConjunct key operator values1 <> _getIdForConjunct key operator values2
  /\ hasConjunct (add (LabelSelector None emptySelectsAll) key operator values1)
       (make_conjunct key operator values2) = false
  /\ obj_keys (_conjuncts
       (add (add (LabelSelector None emptySelectsAll) key operator values1)
            key operator values2))
     = [_getIdForConjunct key operator values1;
        _getIdForConjunct key operator values2].
Proof.
  intros Hfree Hperm Hne.
  assert (_getIdForConjunct key operator values1
          <> _getIdForConjunct key operator values2) as Hid.
  { intros H%getId_inv. apply Hne, join_comma_inj; auto.
    - by rewrite <- Hperm.
    - by apply Permutation_length. }
  split; [done|]. split.
  - rewrite hasConjunct_add_other; [reflexivity|]. simpl. congruence.
  - simpl.
    destruct (String.eqb_spec (_getIdForConjunct key operator values1)
                (_getIdForConjunct key operator values2)); [done|reflexivity].
Qed.

Lemma getId_value_order_witness :
  Forall comma_free ["a"; "b"]
  /\ ["a"; "b"] ≡ₚ ["b"; "a"]
  /\ ["a"; "b"] <> ["b"; "a"]
  /\ _getIdForConjunct "tier" (Some "in") ["a"; "b"]
     <> _getIdForConjunct "tier" (Some "in") ["b"; "a"].
Proof.
  assert (Forall comma_free ["a"; "b"]) as Hfree by (repeat constructor).
  assert (["a"; "b"] ≡ₚ ["b"; "a"]) as Hperm by apply Permutation_swap.
  assert (["a"; "b"] <> ["b"; "a"]) as Hne by discriminate.
  split; [exact Hfree|]. split; [exact Hperm|]. split; [exact Hne|].
  apply (getId_value_order "tier" (Some "in") ["a"; "b"] ["b"; "a"] false
           Hfree Hperm Hne).
Defined.

(** ** Subsumption *)

Lemma includes_elem_of l x : includes l x = true <-> x ∈ l.
Proof.
  unfold includes. rewrite existsb_exists. split.
  - intros (y & Hy & ->%String.eqb_eq). by apply list_elem_of_In.
  - intros H. exists x. split; [by apply list_elem_of_In | apply String.eqb_refl].
Qed.

Lemma includes_not_elem_of l x : includes l x = false <-> x ∉ l.
Proof.
  rewrite <- includes_elem_of. destruct (includes l x); split; congruence.
Qed.

Lemma elem_of_baseIntersection x result array other :
  x ∈ baseIntersection result array other
  <-> x ∈ result \/ (x ∈ array /\ x ∈ other).
Proof.
  revert result. induction array as [|v array IH]; intros result; simpl.
  - split; [by left|]. intros [H|[H _]]; [done|]. by apply elem_of_nil in H.
  - destruct (includes result v) eqn:Hres; simpl.
    + apply includes_elem_of in Hres. rewrite IH, elem_of_cons.
      split; [tauto|]. intros [H|[[->|H] Ho]]; auto.
    + destruct (includes other v) eqn:Hoth.
      * apply includes_elem_of in Hoth.
        rewrite IH, elem_of_app, list_elem_of_singleton, elem_of_cons.
        split; [|tauto]. intros [[H| ->]|H]; tauto.
      * apply includes_not_elem_of in Hoth. rewrite IH, elem_of_cons.
        split; [tauto|]. intros [H|[[->|H] Ho]]; tauto.
Qed.

Lemma NoDup_baseIntersection result array other :
  NoDup result -> NoDup (baseIntersection result array other).
Proof.
  revert result. induction array as [|v array IH]; intros result Hnd; simpl; [done|].
  destruct (includes result v) eqn:Hres; simpl; [auto|].
  destruct (includes other v); [|auto].
  apply IH, NoDup_app. split; [done|]. split; [|apply NoDup_singleton].
  intros x Hx ->%list_elem_of_singleton.
  by apply includes_not_elem_of in Hres.
Qed.

Lemma elem_of_intersection x array other :
  x ∈ intersection array other <-> x ∈ array /\ x ∈ other.
Proof.
  unfold intersection. rewrite elem_of_baseIntersection.
  split; [|tauto]. intros [H|H]; [by apply elem_of_nil in H | done].
Qed.

Lemma NoDup_intersection array other : NoDup (intersection array other).
Proof. apply NoDup_baseIntersection, NoDup_nil_2. Qed.

(** A list has as many elements as a duplicate-free part of it exactly when
    it has no duplicates and no other element. *)
Lemma length_eq_NoDup_part (part whole : list string) :
  NoDup part -> part ⊆ whole ->
  length whole = length part <-> NoDup whole /\ whole ⊆ part.
Proof.
  intros Hnd Hsub. pose proof (NoDup_submseteq _ _ Hnd Hsub) as Hms. split.
  - intros Hlen.
    assert (part ≡ₚ whole) as Hperm.
    { apply submseteq_length_Permutation; [done|]. by rewrite Hlen. }
    split; [by rewrite <- Hperm|]. intros x Hx. by rewrite Hperm.
  - intros [Hnd' Hsub'].
    pose proof (submseteq_length _ _ Hms).
    pose proof (submseteq_length _ _ (NoDup_submseteq _ _ Hnd' Hsub')). lia.
Qed.

(** The test of the "in" case on the values [W] of a conjunct of the other
    selector and the values [V] of this one. *)
Lemma in_test (W V : list string) :
  Nat.eqb (length W) (length (intersection W V)) = true <-> NoDup W /\ W ⊆ V.
Proof.
  rewrite Nat.eqb_eq, length_eq_NoDup_part.
  - split; intros [Hnd Hsub]; (split; [done|]); intros x Hx.
    + by apply (Hsub x), elem_of_intersection in Hx as [_ ?].
    + apply elem_of_intersection. auto.
  - apply NoDup_intersection.
  - intros x Hx. by apply elem_of_intersection in Hx as [? _].
Qed.

(** The test of the "not in" case, with the same roles of [W] and [V]. *)
Lemma not_in_test (W V : list string) :
  Nat.eqb (length V) (length (intersection W V)) = true <-> NoDup V /\ V ⊆ W.
Proof.
  rewrite Nat.eqb_eq, length_eq_NoDup_part.
  - split; intros [Hnd Hsub]; (split; [done|]); intros x Hx.
    + by apply (Hsub x), elem_of_intersection in Hx as [? _].
    + apply elem_of_intersection. auto.
  - apply NoDup_intersection.
  - intros x Hx. by apply elem_of_intersection in Hx as [_ ?].
Qed.

Lemma baseIntersection_all result array other :
  NoDup (result ++ array) -> array ⊆ other ->
  baseIntersection result array other = result ++ array.
Proof.
  revert result. induction array as [|v array IH]; intros result Hnd Hsub; simpl.
  - by rewrite app_nil_r.
  - assert (includes result v = false) as ->.
    { apply includes_not_elem_of. intros Hv.
      apply NoDup_app in Hnd as (_ & Hdisj & _).
      apply (Hdisj v Hv), elem_of_cons. by left. }
    assert (includes other v = true) as ->.
    { apply includes_elem_of, Hsub, elem_of_cons. by left. }
    simpl. rewrite IH.
    + by rewrite <- app_assoc.
    + by rewrite <- app_assoc.
    + intros x Hx. apply Hsub, elem_of_cons. by right.
Qed.

(** The intersection gives back its first array exactly when that array
    has no duplicates and lies within the second. *)
Lemma intersection_fixed (W V : list string) :
  intersection W V = W <-> NoDup W /\ W ⊆ V.
Proof.
  split.
  - intros H. apply in_test. rewrite H. apply Nat.eqb_refl.
  - intros [Hnd Hsub]. by apply (baseIntersection_all [] W V).
Qed.

Lemma strict_eq_true a b : strict_eq a b = true <-> a = b.
Proof.
  destruct a as [x|], b as [y|]; simpl; try (split; congruence).
  rewrite String.eqb_eq. split; congruence.
Qed.

Lemma elem_of_findConjunctsMatching e this operator key :
  e ∈ findConjunctsMatching this operator key
  <-> e ∈ _conjuncts this /\ c_operator (snd e) = operator /\ c_key (snd e) = key.
Proof.
  unfold findConjunctsMatching.
  rewrite list_elem_of_In, filter_In, <- list_elem_of_In, andb_true_iff.
  by rewrite strict_eq_true, String.eqb_eq.
Qed.

Lemma _isEmpty_false {V} (o : obj V) : _isEmpty o = false <-> exists e, e ∈ o.
Proof.
  destruct o as [|e o]; simpl.
  - split; [done|]. intros [e H]. by apply elem_of_nil in H.
  - split; [|done]. intros _. exists e. apply elem_of_cons. by left.
Qed.

Lemma _every_true {V} (o : obj V) f :
  _every o f = true <-> forall e, e ∈ o -> f (snd e) = true.
Proof. apply forallb_elem_of. Qed.

Lemma covers_true this selector :
  covers this selector = true
  <-> isEmpty this = false
      /\ forall e, e ∈ _conjuncts this -> covered selector (snd e) = true.
Proof.
  unfold covers. destruct (isEmpty this).
  - split; [done|]. by intros [? _].
  - rewrite _every_true. split; [done|]. by intros [_ ?].
Qed.

(** What [covered] computes for a conjunct of the given operator that has
    no entry under its own id in the other selector. *)
Lemma covered_in selector conjunct :
  c_operator conjunct = Some "in" ->
  hasConjunct selector conjunct = false ->
  covered selector conjunct =
    let inConjuncts := findConjunctsMatching selector (Some "in") (c_key conjunct) in
    negb (_isEmpty inConjuncts)
    && _every inConjuncts (fun inConjunct =>
         Nat.eqb (length (c_values inConjunct))
           (length (intersection (c_values inConjunct) (c_values conjunct)))).
Proof.
  intros Hop Hhas. unfold covered. rewrite Hhas, Hop. simpl.
  by destruct (_isEmpty _).
Qed.

Lemma covered_not_in selector conjunct :
  c_operator conjunct = Some "not in" ->
  hasConjunct selector conjunct = false ->
  covered selector conjunct =
    let notInConjuncts :=
      findConjunctsMatching selector (Some "not in") (c_key conjunct) in
    negb (_isEmpty notInConjuncts)
    && _every notInConjuncts (fun notInConjunct =>
         Nat.eqb (length (c_values conjunct))
           (length (intersection (c_values notInConjunct) (c_values conjunct)))).
Proof.
  intros Hop Hhas. unfold covered. rewrite Hhas, Hop. simpl.
  by destruct (_isEmpty _).
Qed.

(** In(tier, [a]) against In(tier, [a, a]): the ids differ, the other
    selector has an "in" conjunct on the key and all its values lie in
    [a], and yet the conjunct is not counted as covered. *)
Lemma covers_in_repeated_value :
  hasConjunct (single "tier" "in" ["a"; "a"]) (make_conjunct "tier" (Some "in") ["a"])
  = false
  /\ tuples (single "tier" "in" ["a"; "a"]) = [("tier", Some "in", ["a"; "a"])]
  /\ forallb (includes ["a"]) ["a"; "a"] = true
  /\ covered (single "tier" "in" ["a"; "a"]) (make_conjunct "tier" (Some "in") ["a"])
     = false
  /\ covers (single "tier" "in" ["a"]) (single "tier" "in" ["a"; "a"]) = false.
Proof. repeat split. Qed.

(** C1, amended: for an "in" conjunct of a selector [A] that has no entry
    under its own id in [B], the callback of [covers] answers true exactly
    when [B] holds an "in" conjunct on the same key and the values of every
    such conjunct of [B] are pairwise distinct and all among the values of
    the conjunct of [A]; that is the same as lodash's intersection of the
    two value lists giving back the values of the conjunct of [B]. When
    [covers] answers true, the conjunct passed that test. *)
Theorem covers_in_conjunct
    (A B : LabelSelector_t) (id : string) (conjunct : conjunct) :
  (id, conjunct) ∈ _conjuncts A ->
  c_operator conjunct = Some "in" ->
  hasConjunct B conjunct = false ->
  (covered B conjunct = true <->
     (exists e, e ∈ _conjuncts B /\ c_operator (snd e) = Some "in"
                /\ c_key (snd e) = c_key conjunct)
     /\ (forall e, e ∈ _conjuncts B -> c_operator (snd e) = Some "in" ->
           c_key (snd e) = c_key conjunct ->
           NoDup (c_values (snd e)) /\ c_values (snd e) ⊆ c_values conjunct))
  /\ (covers A B = true -> covered B conjunct = true)
  /\ (forall W, intersection W (c_values conjunct) = W
                <-> NoDup W /\ W ⊆ c_values conjunct).
Proof.
  intros Hin Hop Hhas. split; [|split].
  - rewrite (covered_in _ _ Hop Hhas). simpl.
    rewrite andb_true_iff, negb_true_iff, _isEmpty_false, _every_true.
    split; intros [Hex Hall]; split.
    + destruct Hex as [e He]. exists e.
      by apply elem_of_findConjunctsMatching in He.
    + intros e He Hope Hkey. apply in_test, Hall.
      by apply elem_of_findConjunctsMatching.
    + destruct Hex as (e & He & Hope & Hkey). exists e.
      by apply elem_of_findConjunctsMatching.
    + intros e (He & Hope & Hkey)%elem_of_findConjunctsMatching.
      apply in_test. auto.
  - intros [_ Hall]%covers_true. apply (Hall (id, conjunct) Hin).
  - intros W. apply intersection_fixed.
Qed.

(** A = In(tier, [frontend, backend]) and B = In(tier, [frontend]). *)
Lemma covers_in_conjunct_witness :
  (c_id (make_conjunct "tier" (Some "in") ["frontend"; "backend"]),
   make_conjunct "tier" (Some "in") ["frontend"; "backend"])
    ∈ _conjuncts (single "tier" "in" ["frontend"; "backend"])
  /\ c_operator (make_conjunct "tier" (Some "in") ["frontend"; "backend"])
     = Some "in"
  /\ hasConjunct (single "tier" "in" ["frontend"])
       (make_conjunct "tier" (Some "in") ["frontend"; "backend"]) = false
  /\ covered (single "tier" "in" ["frontend"])
       (make_conjunct "tier" (Some "in") ["frontend"; "backend"]) = true.
Proof.
  assert ((c_id (make_conjunct "tier" (Some "in") ["frontend"; "backend"]),
           make_conjunct "tier" (Some "in") ["frontend"; "backend"])
            ∈ _conjuncts (single "tier" "in" ["frontend"; "backend"])) as Hin.
  { vm_compute. apply list_elem_of_here. }
  split; [exact Hin|]. split; [reflexivity|]. split; [reflexivity|].
  destruct (covers_in_conjunct (single "tier" "in" ["frontend"; "backend"])
              (single "tier" "in" ["frontend"]) _ _ Hin eq_refl eq_refl)
    as [Hiff _].
  apply Hiff. split.
  - eexists. split; [apply list_elem_of_here|]. by split.
  - intros e He _ _. vm_compute in He. apply list_elem_of_singleton in He.
    subst e. split.
    + apply NoDup_singleton.
    + intros x ->%list_elem_of_singleton. apply list_elem_of_here.
Defined.

Lemma single_hasConjunct_other key operator values values' :
  String.eqb (join "," values) (join "," values') = false ->
  hasConjunct (single key operator values)
    (make_conjunct key (Some operator) values') = false.
Proof.
  intros H. unfold hasConjunct, single. simpl. unfold _getIdForConjunct. simpl.
  by rewrite append_eqb_head, (append_eqb_head "-"), H.
Qed.

Lemma single_find key operator values :
  findConjunctsMatching (single key operator values) (Some operator) key
  = _conjuncts (single key operator values).
Proof.
  unfold findConjunctsMatching, single. simpl. by rewrite !String.eqb_refl.
Qed.

Lemma single_covers key operator values values' :
  covers (single key operator values') (single key operator values)
  = covered (single key operator values) (make_conjunct key (Some operator) values').
Proof. unfold covers. simpl. apply andb_true_r. Qed.

(** The scenarios of the "in" case, for any key. *)
Example covers_in_scenarios (K : string) :
  covers (single K "in" ["a"; "b"]) (single K "in" ["a"]) = true
  /\ covers (single K "in" ["a"; "b"]) (single K "in" ["b"]) = true
  /\ covers (single K "in" ["a"; "b"]) (single K "in" ["a"; "b"]) = true
  /\ covers (single K "in" ["a"; "b"]) (single K "in" ["a"; "c"]) = false
  /\ covers (single K "in" ["a"]) (single K "in" ["a"; "b"]) = false.
Proof.
  repeat split.
  - rewrite single_covers, covered_in, single_find;
      auto using single_hasConjunct_other.
  - rewrite single_covers, covered_in, single_find;
      auto using single_hasConjunct_other.
  - unfold covers, covered, hasConjunct. simpl. by rewrite String.eqb_refl.
  - rewrite single_covers, covered_in, single_find;
      auto using single_hasConjunct_other.
  - rewrite single_covers, covered_in, single_find;
      auto using single_hasConjunct_other.
Qed.

(** NotIn(tier, [a, a]) against NotIn(tier, [a]): the ids differ, the
    other selector has a "not in" conjunct on the key whose values include
    every excluded value, and yet the conjunct is not counted as covered. *)
Lemma covers_not_in_repeated_value :
  hasConjunct (single "tier" "not in" ["a"])
    (make_conjunct "tier" (Some "not in") ["a"; "a"]) = false
  /\ tuples (single "tier" "not in" ["a"]) = [("tier", Some "not in", ["a"])]
  /\ forallb (includes ["a"]) ["a"; "a"] = true
  /\ covered (single "tier" "not in" ["a"])
       (make_conjunct "tier" (Some "not in") ["a"; "a"]) = false
  /\ covers (single "tier" "not in" ["a"; "a"]) (single "tier" "not in" ["a"])
     = false.
Proof. repeat split. Qed.

(** C2, amended: for a "not in" conjunct of a selector [A] that has no
    entry under its own id in [B], the callback of [covers] answers true
    exactly when [B] holds a "not in" conjunct on the same key, the values
    of the conjunct of [A] are pairwise distinct, and they are all among
    the values of every such conjunct of [B]. When [covers] answers true,
    the conjunct passed that test. *)
Theorem covers_not_in_conjunct
    (A B : LabelSelector_t) (id : string) (conjunct : conjunct) :
  (id, conjunct) ∈ _conjuncts A ->
  c_operator conjunct = Some "not in" ->
  hasConjunct B conjunct = false ->
  (covered B conjunct = true <->
     (exists e, e ∈ _conjuncts B /\ c_operator (snd e) = Some "not in"
                /\ c_key (snd e) = c_key conjunct)
     /\ (forall e, e ∈ _conjuncts B -> c_operator (snd e) = Some "not in" ->
           c_key (snd e) = c_key conjunct ->
           NoDup (c_values conjunct) /\ c_values conjunct ⊆ c_values (snd e)))
  /\ (covers A B = true -> covered B conjunct = true).
Proof.
  intros Hin Hop Hhas. split.
  - rewrite (covered_not_in _ _ Hop Hhas). simpl.
    rewrite andb_true_iff, negb_true_iff, _isEmpty_false, _every_true.
    split; intros [Hex Hall]; split.
    + destruct Hex as [e He]. exists e.
      by apply elem_of_findConjunctsMatching in He.
    + intros e He Hope Hkey. apply not_in_test, Hall.
      by apply elem_of_findConjunctsMatching.
    + destruct Hex as (e & He & Hope & Hkey). exists e.
      by apply elem_of_findConjunctsMatching.
    + intros e (He & Hope & Hkey)%elem_of_findConjunctsMatching.
      apply not_in_test. auto.
  - intros [_ Hall]%covers_true. apply (Hall (id, conjunct) Hin).
Qed.

(** A = NotIn(tier, [a]) and B = NotIn(tier, [a, b]). *)
Lemma covers_not_in_conjunct_witness :
  (c_id (make_conjunct "tier" (Some "not in") ["a"]),
   make_conjunct "tier" (Some "not in") ["a"])
    ∈ _conjuncts (single "tier" "not in" ["a"])
  /\ c_operator (make_conjunct "tier" (Some "not in") ["a"]) = Some "not in"
  /\ hasConjunct (single "tier" "not in" ["a"; "b"])
       (make_conjunct "tier" (Some "not in") ["a"]) = false
  /\ covered (single "tier" "not in" ["a"; "b"])
       (make_conjunct "tier" (Some "not in") ["a"]) = true.
Proof.
  assert ((c_id (make_conjunct "tier" (Some "not in") ["a"]),
           make_conjunct "tier" (Some "not in") ["a"])
            ∈ _conjuncts (single "tier" "not in" ["a"])) as Hin.
  { vm_compute. apply list_elem_of_here. }
  split; [exact Hin|]. split; [reflexivity|]. split; [reflexivity|].
  destruct (covers_not_in_conjunct (single "tier" "not in" ["a"])
              (single "tier" "not in" ["a"; "b"]) _ _ Hin eq_refl eq_refl)
    as [Hiff _].
  apply Hiff. split.
  - eexists. split; [apply list_elem_of_here|]. by split.
  - intros e He _ _. vm_compute in He. apply list_elem_of_singleton in He.
    subst e. split.
    + apply NoDup_singleton.
    + intros x ->%list_elem_of_singleton. apply list_elem_of_here.
Defined.

(** The scenarios of the "not in" case, for any key. *)
Example covers_not_in_scenarios (K : string) :
  covers (single K "not in" ["a"]) (single K "not in" ["a"; "b"]) = true
  /\ covers (single K "not in" ["a"]) (single K "not in" ["a"; "c"]) = true
  /\ covers (single K "not in" ["a"]) (single K "not in" ["b"]) = false.
Proof.
  repeat split;
    rewrite single_covers, covered_not_in, single_find;
    auto using single_hasConjunct_other.
Qed.

(** ** Export and re-parsing *)

Lemma obj_get_cons {V} k k' (v : V) o :
  obj_get k ((k', v) :: o) = if String.eqb k' k then Some v else obj_get k o.
Proof. reflexivity. Qed.

Lemma known_operator_round_trip operator :
  known_operator operator = true ->
  table_get _OPERATOR_MAP (table_get _REVERSE_OPERATOR_MAP operator) = operator.
Proof.
  unfold known_operator, table_get. destruct operator as [s|]; [|done].
  change (js_to_string (Some s)) with s.
  unfold _REVERSE_OPERATOR_MAP. rewrite !obj_get_cons.
  destruct (String.eqb_spec "in" s) as [<-|_]; [done|].
  destruct (String.eqb_spec "not in" s) as [<-|_]; [done|].
  destruct (String.eqb_spec "exists" s) as [<-|_]; [done|].
  destruct (String.eqb_spec "does not exist" s) as [<-|_]; [done|].
  done.
Qed.

Lemma exportable_operator_round_trip operator :
  exportable_operator operator = true ->
  table_get _OPERATOR_MAP (table_get _REVERSE_OPERATOR_MAP operator) = operator.
Proof.
  destruct operator as [s|]; [apply known_operator_round_trip | done].
Qed.

Lemma add_exported_entry this entry :
  entry_ok entry ->
  exportable_operator (c_operator (snd entry)) = true ->
  fst entry ∉ obj_keys (_conjuncts this) ->
  _conjuncts (add_matchExpression this (export_entry entry))
  = _conjuncts this ++ [entry].
Proof.
  destruct entry as [i c]. intros [Hi Hc] Hop Hfresh. simpl in *.
  unfold add_matchExpression. simpl.
  rewrite (exportable_operator_round_trip _ Hop).
  change (_getIdForConjunct (c_key c) (c_operator c) (c_values c))
    with (c_id (make_conjunct (c_key c) (c_operator c) (c_values c))).
  rewrite <- Hc, <- Hi. by apply obj_set_fresh.
Qed.

Lemma add_exported_entries rest :
  forall this,
    well_keyed (_conjuncts this ++ rest) ->
    Forall (fun entry => exportable_operator (c_operator (snd entry)) = true) rest ->
    _conjuncts (fold_left add_matchExpression (map export_entry rest) this)
    = _conjuncts this ++ rest.
Proof.
  induction rest as [|entry rest IH]; intros this Hwk Hops; simpl.
  - by rewrite app_nil_r.
  - apply Forall_cons in Hops as [Hop Hops]. destruct Hwk as [Hnd Hok].
    assert (_conjuncts (add_matchExpression this (export_entry entry))
            = _conjuncts this ++ [entry]) as Hadd.
    { apply add_exported_entry; [|done|].
      - apply Forall_app in Hok as [_ Hok]. by apply Forall_cons in Hok as [? _].
      - unfold obj_keys in *. rewrite map_app in Hnd. simpl in Hnd.
        apply NoDup_app in Hnd as (_ & Hdisj & _).
        intros Hin. apply (Hdisj _ Hin), elem_of_cons. by left. }
    rewrite IH, Hadd; [by rewrite <- app_assoc| |done].
    rewrite Hadd, <- app_assoc. by split.
Qed.

Lemma reparse_conjuncts this emptySelectsAll :
  well_keyed (_conjuncts this) ->
  exportable_operators this = true ->
  _conjuncts (reparse this emptySelectsAll) = _conjuncts this.
Proof.
  intros Hwk Hops. unfold reparse, LabelSelector, parse_export, exportJSON. simpl.
  rewrite add_exported_entries; [done|done|].
  apply Forall_forall. intros e He.
  by apply (proj1 (forallb_elem_of _ _) Hops).
Qed.

(** The selector that was given the conjunct [("app", "In", ["web"])],
    with the API spelling of the operator: the export has no name for that
    operator and leaves it out, the selector built from the export holds a
    conjunct without operator, and the tuples differ. *)
Lemma exportJSON_operator_lost :
  tuples (run [AddConjunct "app" (Some "In") ["web"]] (LabelSelector None false))
  = [("app", Some "In", ["web"])]
  /\ exportJSON (run [AddConjunct "app" (Some "In") ["web"]] (LabelSelector None false))
     = [ {| e_key := "app"; e_operator := None; e_values := ["web"] |} ]
  /\ tuples (reparse (run [AddConjunct "app" (Some "In") ["web"]]
                        (LabelSelector None false)) false)
     = [("app", None, ["web"])]
  /\ ~ (tuples (reparse (run [AddConjunct "app" (Some "In") ["web"]]
                           (LabelSelector None false)) false)
        ≡ₚ tuples (run [AddConjunct "app" (Some "In") ["web"]]
                     (LabelSelector None false))).
Proof.
  split; [reflexivity|]. split; [reflexivity|]. split; [reflexivity|].
  intros H. apply Permutation_singleton_r in H. discriminate H.
Qed.

(** C7, amended: for a selector built by the constructor and any calls of
    [addConjunct], [removeConjunct] and [clearConjuncts], each of whose
    conjuncts has one of the four operators or no operator at all
    ([undefined]), the selector built from the exported [matchExpressions]
    holds the same [{key, operator, values}] tuples, up to order; indeed it
    holds the same collection. *)
Theorem exportJSON_round_trip
    (selector : option selector_json) (emptySelectsAll : bool)
    (calls : list call) (emptySelectsAll' : bool) :
  exportable_operators (run calls (LabelSelector selector emptySelectsAll)) = true ->
  tuples (reparse (run calls (LabelSelector selector emptySelectsAll))
            emptySelectsAll')
    ≡ₚ tuples (run calls (LabelSelector selector emptySelectsAll))
  /\ _conjuncts (reparse (run calls (LabelSelector selector emptySelectsAll))
                  emptySelectsAll')
     = _conjuncts (run calls (LabelSelector selector emptySelectsAll)).
Proof.
  intros Hops.
  assert (_conjuncts (reparse (run calls (LabelSelector selector emptySelectsAll))
                        emptySelectsAll')
          = _conjuncts (run calls (LabelSelector selector emptySelectsAll))) as H.
  { apply reparse_conjuncts; [apply well_keyed_reachable | done]. }
  split; [|done]. unfold tuples. by rewrite H.
Qed.

Lemma exportJSON_round_trip_witness :
  exportable_operators
    (run (web_calls ++ [AddConjunct "rack" None ["r1"]])
       (LabelSelector (Some web_selector) false)) = true
  /\ tuples (reparse (run (web_calls ++ [AddConjunct "rack" None ["r1"]])
                        (LabelSelector (Some web_selector) false)) true)
     ≡ₚ tuples (run (web_calls ++ [AddConjunct "rack" None ["r1"]])
                  (LabelSelector (Some web_selector) false)).
Proof.
  split; [reflexivity|].
  apply (exportJSON_round_trip (Some web_selector) false
           (web_calls ++ [AddConjunct "rack" None ["r1"]]) true).
  reflexivity.
Defined.

Example exportJSON_web :
  exportJSON (run web_calls (LabelSelector (Some web_selector) false))
  = [ {| e_key := "app"; e_operator := Some "In"; e_values := ["web"] |};
      {| e_key := "env"; e_operator := Some "NotIn";
         e_values := ["prod"; "staging"] |};
      {| e_key := "legacy"; e_operator := Some "DoesNotExist"; e_values := [] |};
      {| e_key := "zone"; e_operator := Some "In"; e_values := ["a"; "b"] |} ].
Proof. reflexivity. Qed.

(** * Further properties of the program *)

(** ** The four operators on a label mapping *)

(** X1: for a key that is not the name of an inherited member, an
    "exists" conjunct holds exactly when the key has a label, the empty
    string included; for every key, a "does not exist" conjunct holds
    exactly when the "exists" conjunct on that key does not. *)
Theorem satisfied_exists_complement
    (lbls : gmap string string) (key : string) (values values' : list string) :
  (inherited_name key = false ->
   satisfied lbls (make_conjunct key (Some "exists") values) = present (lbls !! key))
  /\ satisfied lbls (make_conjunct key (Some "does not exist") values')
     = negb (satisfied lbls (make_conjunct key (Some "exists") values)).
Proof.
  unfold satisfied. simpl. destruct (lbls !! key) as [v|]; simpl; [|done].
  by destruct (String.eqb v "").
Qed.

Lemma satisfied_exists_complement_witness :
  inherited_name "tier" = false
  /\ satisfied {[ "tier" := "" ]} (make_conjunct "tier" (Some "exists") []) = true
  /\ satisfied {[ "app" := "web" ]} (make_conjunct "tier" (Some "exists") []) = false.
Proof.
  split; [reflexivity|]. split.
  - exact (proj1 (satisfied_exists_complement {[ "tier" := "" ]} "tier" [] [])
             eq_refl).
  - exact (proj1 (satisfied_exists_complement {[ "app" := "web" ]} "tier" [] [])
             eq_refl).
Defined.

Lemma in_loop_true v values : in_loop (Some v) values = true <-> v ∈ values.
Proof.
  induction values as [|w values IH]; simpl.
  - split; [done|]. intros H. by apply elem_of_nil in H.
  - rewrite elem_of_cons. destruct (String.eqb_spec v w) as [->|Hne].
    + split; auto.
    + rewrite IH. split; [auto|]. by intros [?|?].
Qed.

(** X2: for a key that is not the name of an inherited member, an "in"
    conjunct holds exactly when the key has a label, the empty string
    included, that is one of the values; for every key, a selector that
    was given an "in" conjunct without values matches no resource. *)
Theorem satisfied_in
    (this : LabelSelector_t) (resource : resource_t)
    (lbls : gmap string string) (key : string) (values : list string) :
  (inherited_name key = false ->
   (satisfied lbls (make_conjunct key (Some "in") values) = true
    <-> exists v, lbls !! key = Some v /\ v ∈ values))
  /\ matches (add this key (Some "in") []) (Some resource) = false.
Proof.
  assert (forall l vs, satisfied l (make_conjunct key (Some "in") vs) = true
                       <-> exists v, l !! key = Some v /\ v ∈ vs) as Hin.
  { intros l vs. unfold satisfied. simpl. destruct (l !! key) as [v|]; simpl.
    - assert (negb (String.eqb v "") || String.eqb v "" = true) as ->
        by by destruct (String.eqb v "").
      destruct (in_loop (Some v) vs) eqn:Hloop; simpl.
      + apply in_loop_true in Hloop. split; [eauto|done].
      + split; [done|]. intros (w & [= <-] & Hw).
        apply in_loop_true in Hw. congruence.
    - split; [done|]. by intros (w & ? & _). }
  split; [intros _; apply Hin|].
  apply (matches_unsatisfied _ _
           (c_id (make_conjunct key (Some "in") []),
            make_conjunct key (Some "in") [])).
  - apply obj_set_elem.
  - apply not_true_is_false. intros (v & _ & Hv)%Hin. by apply elem_of_nil in Hv.
Qed.

Lemma satisfied_in_witness :
  inherited_name "tier" = false
  /\ ({[ "tier" := "" ]} : gmap string string) !! "tier" = Some ""
  /\ satisfied {[ "tier" := "" ]} (make_conjunct "tier" (Some "in") ["frontend"; ""])
     = true.
Proof.
  split; [reflexivity|]. split; [reflexivity|].
  apply (proj1 (satisfied_in (LabelSelector None false) (flat_resource ∅)
                  {[ "tier" := "" ]} "tier" ["frontend"; ""]) eq_refl).
  exists "". split; [reflexivity|].
  apply list_elem_of_further, list_elem_of_here.
Defined.

(** X3: for a key that is not the name of an inherited member, a "not
    in" conjunct fails exactly when the key has a label that is a
    non-empty string and one of the values; a missing label, an empty
    label and a label outside the values all pass. *)
Theorem satisfied_not_in_fails
    (lbls : gmap string string) (key : string) (values : list string) :
  inherited_name key = false ->
  satisfied lbls (make_conjunct key (Some "not in") values) = false
  <-> exists v, lbls !! key = Some v /\ v <> "" /\ v ∈ values.
Proof.
  intros _. rewrite satisfied_not_in by done. simpl.
  destruct (lbls !! key) as [v|]; simpl.
  - destruct (String.eqb_spec v "") as [->|Hne]; simpl.
    + split; [done|]. by intros (w & [= <-] & Hw & _).
    + rewrite not_in_loop_false. split; [eauto|].
      by intros (w & [= <-] & _ & Hw).
  - split; [done|]. by intros (w & ? & _).
Qed.

Lemma satisfied_not_in_fails_witness :
  inherited_name "env" = false
  /\ satisfied {[ "env" := "prod" ]} (make_conjunct "env" (Some "not in") ["prod"])
     = false.
Proof.
  split; [reflexivity|].
  apply (satisfied_not_in_fails {[ "env" := "prod" ]} "env" ["prod"] eq_refl).
  exists "prod". split; [reflexivity|]. split; [discriminate|].
  apply list_elem_of_here.
Defined.

Lemma known_operator_false operator :
  known_operator operator = false ->
  loose_eq operator "exists" = false
  /\ loose_eq operator "does not exist" = false
  /\ loose_eq operator "in" = false
  /\ loose_eq operator "not in" = false.
Proof.
  unfold known_operator, table_get. destruct operator as [s|]; [|done].
  change (js_to_string (Some s)) with s.
  unfold _REVERSE_OPERATOR_MAP, loose_eq. rewrite !obj_get_cons.
  rewrite (String.eqb_sym s "exists"), (String.eqb_sym s "does not exist"),
    (String.eqb_sym s "in"), (String.eqb_sym s "not in").
  destruct (String.eqb "in" s); [done|].
  destruct (String.eqb "not in" s); [done|].
  destruct (String.eqb "exists" s); [done|].
  destruct (String.eqb "does not exist" s); done.
Qed.

(** X4: a conjunct whose operator is none of the four internal names
    (another string, or [undefined]) never makes [matches] fail and is
    always counted as covered by [covers]. *)
Theorem other_operator_ignored
    (lbls : gmap string string) (selector : LabelSelector_t) (conjunct : conjunct) :
  known_operator (c_operator conjunct) = false ->
  satisfied lbls conjunct = true /\ covered selector conjunct = true.
Proof.
  intros (He & Hd & Hi & Hn)%known_operator_false.
  unfold satisfied, covered. rewrite He, Hd, Hi, Hn.
  split; [done|]. by destruct (hasConjunct _ _).
Qed.

Lemma other_operator_ignored_witness :
  known_operator (c_operator (make_conjunct "app" (Some "In") ["web"])) = false
  /\ satisfied {[ "app" := "db" ]} (make_conjunct "app" (Some "In") ["web"]) = true
  /\ covered (LabelSelector None false) (make_conjunct "app" (Some "In") ["web"])
     = true.
Proof.
  split; [reflexivity|].
  apply (other_operator_ignored {[ "app" := "db" ]} (LabelSelector None false)
           (make_conjunct "app" (Some "In") ["web"])).
  reflexivity.
Defined.

(** ** Adding, looking up and removing *)

Lemma getId_truthy key operator values :
  truthy (Some (_getIdForConjunct key operator values)) = true.
Proof.
  unfold _getIdForConjunct, truthy. destruct key; simpl; [|done].
  by destruct (js_to_string operator).
Qed.

Lemma obj_get_delete {V} k (o : obj V) : obj_get k (obj_delete k o) = None.
Proof.
  induction o as [|[k' v'] o IH]; simpl; [done|].
  destruct (String.eqb_spec k' k) as [->|Hne]; simpl; [done|].
  by destruct (String.eqb_spec k' k).
Qed.

Lemma obj_delete_set {V} k (v : V) o : obj_delete k (obj_set k v o) = obj_delete k o.
Proof.
  induction o as [|[k' v'] o IH]; simpl.
  - by rewrite String.eqb_refl.
  - destruct (String.eqb_spec k' k) as [->|Hne]; simpl.
    + by rewrite String.eqb_refl.
    + destruct (String.eqb_spec k' k); [done|]. by rewrite IH.
Qed.

Lemma obj_delete_absent {V} k (o : obj V) : obj_get k o = None -> obj_delete k o = o.
Proof.
  induction o as [|[k' v'] o IH]; simpl; [done|].
  destruct (String.eqb_spec k' k) as [->|Hne]; [done|].
  intros H. by rewrite IH.
Qed.

(** Unfolds the calls on a selector down to the operations on its
    collection, leaving ids and truthiness tests folded. *)
Ltac unfold_calls :=
  unfold hasConjunct, removeConjunct, clearConjuncts, add, addConjunct,
    make_conjunct, set_conjuncts;
  cbn [fst snd c_id c_key c_operator c_values _conjuncts _emptySelectsAll].

Lemma set_conjuncts_same this : set_conjuncts this (_conjuncts this) = this.
Proof. by destruct this. Qed.

(** X5: a conjunct that was just added is found by [hasConjunct]; it is not
    found any more once it is removed, by the object that [addConjunct]
    returned or by its id, nor is any conjunct after [clearConjuncts]; a
    selector is not empty after [addConjunct] and is empty after
    [clearConjuncts]. *)
Theorem hasConjunct_add_remove_clear
    (this : LabelSelector_t)
    (key : string) (operator : option string) (values : list string)
    (other : conjunct) :
  hasConjunct (add this key operator values) (make_conjunct key operator values)
  = true
  /\ hasConjunct
       (removeConjunct (add this key operator values)
          (inl (snd (addConjunct this key operator values))))
       (make_conjunct key operator values) = false
  /\ hasConjunct
       (removeConjunct (add this key operator values)
          (inr (_getIdForConjunct key operator values)))
       (make_conjunct key operator values) = false
  /\ hasConjunct (clearConjuncts this) other = false
  /\ isEmpty (add this key operator values) = false
  /\ isEmpty (clearConjuncts this) = true.
Proof.
  unfold_calls. rewrite getId_truthy. unfold_calls.
  rewrite obj_get_set, obj_get_delete. repeat split.
  unfold isEmpty. simpl.
  destruct (_conjuncts this) as [|[k' v'] o]; simpl; [done|].
  by destruct (String.eqb k' _).
Qed.

(** X6: [removeConjunct] does the same when it is given the conjunct that
    [addConjunct] returned, on whatever selector, and when it is given the
    id of that conjunct: an id is never the empty string. *)
Theorem removeConjunct_object_or_id
    (this origin : LabelSelector_t)
    (key : string) (operator : option string) (values : list string) :
  removeConjunct this (inl (snd (addConjunct origin key operator values)))
  = removeConjunct this (inr (_getIdForConjunct key operator values))
  /\ c_id (snd (addConjunct origin key operator values)) <> "".
Proof.
  unfold_calls. pose proof (getId_truthy key operator values) as H.
  rewrite H. split; [done|]. intros Heq. by rewrite Heq in H.
Qed.

(** X7: removing a conjunct that the selector does not have changes
    nothing, and adding such a conjunct and removing it again gives back
    the selector as it was. *)
Theorem removeConjunct_absent
    (this : LabelSelector_t)
    (key : string) (operator : option string) (values : list string) :
  hasConjunct this (make_conjunct key operator values) = false ->
  removeConjunct this (inr (_getIdForConjunct key operator values)) = this
  /\ removeConjunct this (inl (make_conjunct key operator values)) = this
  /\ removeConjunct (add this key operator values)
       (inl (snd (addConjunct this key operator values))) = this.
Proof.
  unfold_calls. rewrite getId_truthy. unfold_calls.
  intros H.
  assert (obj_get (_getIdForConjunct key operator values) (_conjuncts this) = None)
    as Hnone by by destruct (obj_get _ _).
  rewrite obj_delete_set, (obj_delete_absent _ _ Hnone).
  repeat split; apply set_conjuncts_same.
Qed.

Lemma removeConjunct_absent_witness :
  hasConjunct app_web (make_conjunct "tier" (Some "exists") []) = false
  /\ removeConjunct (add app_web "tier" (Some "exists") [])
       (inl (snd (addConjunct app_web "tier" (Some "exists") []))) = app_web.
Proof.
  split; [reflexivity|].
  apply (removeConjunct_absent app_web "tier" (Some "exists") []). reflexivity.
Defined.

Lemma obj_set_swap {V} k1 k2 (v1 v2 : V) o :
  k1 <> k2 ->
  obj_set k1 v1 (obj_set k2 v2 o) ≡ₚ obj_set k2 v2 (obj_set k1 v1 o).
Proof.
  intros Hne. induction o as [|[k v] o IH]; simpl.
  - destruct (String.eqb_spec k2 k1); [congruence|].
    destruct (String.eqb_spec k1 k2); [congruence|]. apply Permutation_swap.
  - destruct (String.eqb_spec k k2) as [H2|H2]; simpl.
    + destruct (String.eqb_spec k k1) as [H1|H1]; [congruence|]. simpl.
      destruct (String.eqb_spec k k2); [done|congruence].
    + destruct (String.eqb_spec k k1) as [H1|H1]; simpl.
      * destruct (String.eqb_spec k k2); [congruence|done].
      * destruct (String.eqb_spec k k2); [congruence|]. by rewrite IH.
Qed.

Lemma forallb_Permutation {A} (f : A -> bool) l1 l2 :
  l1 ≡ₚ l2 -> forallb f l1 = forallb f l2.
Proof.
  induction 1 as [|x l1 l2 _ IH|x y l|l1 l2 l3 _ IH1 _ IH2]; simpl.
  - done.
  - by rewrite IH.
  - by destruct (f x), (f y).
  - by rewrite IH1.
Qed.

Lemma matches_Permutation this1 this2 resource :
  _conjuncts this1 ≡ₚ _conjuncts this2 ->
  _emptySelectsAll this1 = _emptySelectsAll this2 ->
  matches this1 resource = matches this2 resource.
Proof.
  intros Hperm Hflag. destruct resource as [r|]; [|done].
  unfold matches, isEmpty. pose proof (Permutation_length Hperm) as Hlen.
  destruct (_conjuncts this1) as [|e1 o1], (_conjuncts this2) as [|e2 o2];
    try discriminate Hlen; [done|].
  by apply forallb_Permutation.
Qed.

(** X8: two conjuncts with different ids can be added in either order: the
    collections hold the same entries, in an order that may differ, and
    [matches] gives the same answer on every resource. *)
Theorem addConjunct_order
    (this : LabelSelector_t) (resource : option resource_t)
    (key1 : string) (operator1 : option string) (values1 : list string)
    (key2 : string) (operator2 : option string) (values2 : list string) :
  _getIdForConjunct key1 operator1 values1 <> _getIdForConjunct key2 operator2 values2 ->
  _conjuncts (add (add this key1 operator1 values1) key2 operator2 values2)
    ≡ₚ _conjuncts (add (add this key2 operator2 values2) key1 operator1 values1)
  /\ matches (add (add this key1 operator1 values1) key2 operator2 values2) resource
     = matches (add (add this key2 operator2 values2) key1 operator1 values1) resource.
Proof.
  intros Hne.
  assert (_conjuncts (add (add this key1 operator1 values1) key2 operator2 values2)
          ≡ₚ _conjuncts (add (add this key2 operator2 values2) key1 operator1 values1))
    as Hperm.
  { simpl. apply obj_set_swap. congruence. }
  split; [done|]. by apply matches_Permutation.
Qed.

Lemma addConjunct_order_witness :
  _getIdForConjunct "app" (Some "in") ["web"] <> _getIdForConjunct "tier" (Some "exists") []
  /\ matches (add (add (LabelSelector None false) "app" (Some "in") ["web"])
               "tier" (Some "exists") [])
       (Some (flat_resource {[ "app" := "web" ]}))
     = matches (add (add (LabelSelector None false) "tier" (Some "exists") [])
                  "app" (Some "in") ["web"])
         (Some (flat_resource {[ "app" := "web" ]})).
Proof.
  assert (_getIdForConjunct "app" (Some "in") ["web"]
          <> _getIdForConjunct "tier" (Some "exists") []) as Hne by discriminate.
  split; [exact Hne|].
  apply (addConjunct_order (LabelSelector None false)
           (Some (flat_resource {[ "app" := "web" ]}))
           "app" (Some "in") ["web"] "tier" (Some "exists") [] Hne).
Defined.

(** ** The constructor *)

Section FoldAdd.
Context {A : Type}.
Variable f : LabelSelector_t -> A -> LabelSelector_t.
Variable mk : A -> conjunct.
Hypothesis f_adds :
  forall this a,
    _conjuncts (f this a) = obj_set (c_id (mk a)) (mk a) (_conjuncts this).


Lemma fold_add_isEmpty l : forall this,
  isEmpty (fold_left f l this) = isEmpty this && Nat.eqb (length l) 0.
Proof.
  induction l as [|a l IH]; intros this; simpl; [by rewrite andb_true_r|].
  rewrite IH, andb_false_r. unfold isEmpty. rewrite f_adds.
  destruct (_conjuncts this) as [|[k v] o]; simpl; [done|].
  by destruct (String.eqb k _).
Qed.

Lemma fold_add_fresh l : forall this,
  NoDup (obj_keys (_conjuncts this) ++ map (fun a => c_id (mk a)) l) ->
  _conjuncts (fold_left f l this)
  = _conjuncts this ++ map (fun a => (c_id (mk a), mk a)) l.
Proof.
  induction l as [|a l IH]; intros this Hnd; simpl; [by rewrite app_nil_r|].
  simpl in Hnd.
  assert (_conjuncts (f this a) = _conjuncts this ++ [(c_id (mk a), mk a)]) as Hadd.
  { rewrite f_adds. apply obj_set_fresh.
    apply NoDup_app in Hnd as (_ & Hdisj & _).
    intros Hin. apply (Hdisj _ Hin), elem_of_cons. by left. }
  rewrite IH, Hadd; [by rewrite <- app_assoc|].
  rewrite Hadd. unfold obj_keys in *. rewrite map_app, <- app_assoc. done.
Qed.
End FoldAdd.

Lemma add_field_adds this entry :
  _conjuncts (add_field this entry)
  = obj_set (c_id (field_conjunct entry)) (field_conjunct entry) (_conjuncts this).
Proof. by destruct entry as [k [d|]]. Qed.




Lemma add_matchLabel_expression this entry :
  add_matchExpression this (label_expression entry) = add_matchLabel this entry.
Proof. reflexivity. Qed.

Lemma fold_left_label_expressions l : forall this,
  fold_left add_matchExpression (map label_expression l) this
  = fold_left add_matchLabel l this.
Proof.
  induction l as [|a l IH]; intros this; simpl; [done|].
  by rewrite IH, add_matchLabel_expression.
Qed.

(** X10: the entries of [matchLabels] are read as "In" expressions with a
    single value, ahead of the entries of [matchExpressions]; when
    [matchLabels] is there, the other properties of the description are
    not read. *)
Theorem matchLabels_as_expressions
    (labels_ : list (string * string)) (expressions : option (list expression))
    (others : list (string * option string)) (emptySelectsAll : bool) :
  LabelSelector
    (Some {| matchLabels := Some labels_; matchExpressions := expressions;
             fields := others |})
    emptySelectsAll
  = LabelSelector
      (Some {| matchLabels := None;
               matchExpressions :=
                 Some (map label_expression labels_ ++ entries_of expressions);
               fields := [] |})
      emptySelectsAll.
Proof.
  unfold LabelSelector. simpl.
  rewrite fold_left_app, fold_left_label_expressions.
  by destruct expressions.
Qed.

Lemma add_matchLabel_adds this entry :
  _conjuncts (add_matchLabel this entry)
  = obj_set (c_id (make_conjunct (fst entry) (Some "in") [snd entry]))
      (make_conjunct (fst entry) (Some "in") [snd entry]) (_conjuncts this).
Proof. reflexivity. Qed.

Lemma add_matchExpression_adds this e :
  _conjuncts (add_matchExpression this e)
  = obj_set
      (c_id (make_conjunct (e_key e) (table_get _OPERATOR_MAP (e_operator e))
               (e_values e)))
      (make_conjunct (e_key e) (table_get _OPERATOR_MAP (e_operator e)) (e_values e))
      (_conjuncts this).
Proof. reflexivity. Qed.

(** X11: the constructor gives an empty selector exactly when it reads no
    entry: no argument, or a description with [matchLabels] or
    [matchExpressions] that are both without entries, or a legacy
    description without properties. *)
Theorem LabelSelector_isEmpty
    (selector : option selector_json) (emptySelectsAll : bool) :
  isEmpty (LabelSelector selector emptySelectsAll)
  = match selector with
    | None => true
    | Some description =>
        if present (matchLabels description) || present (matchExpressions description)
        then Nat.eqb (length (entries_of (matchLabels description))
                      + length (entries_of (matchExpressions description))) 0
        else Nat.eqb (length (fields description)) 0
    end.
Proof.
  destruct selector as [[ml me fs]|]; [|done]. unfold LabelSelector. simpl.
  destruct ml as [ml|], me as [me|]; simpl;
    rewrite ?(fold_add_isEmpty _ _ add_matchExpression_adds),
      ?(fold_add_isEmpty _ _ add_matchLabel_adds),
      ?(fold_add_isEmpty _ _ add_field_adds); simpl.
  - by destruct ml, me.
  - destruct ml; [done|]. simpl. done.
  - done.
  - done.
Qed.

(** ** Selecting resources *)

Lemma filter_sublist {A} (f : A -> bool) (l : list A) : sublist (List.filter f l) l.
Proof.
  induction l as [|x l IH]; simpl; [constructor|].
  destruct (f x); by constructor.
Qed.

Lemma filter_filter {A} (f : A -> bool) (l : list A) :
  List.filter f (List.filter f l) = List.filter f l.
Proof.
  induction l as [|x l IH]; simpl; [done|].
  destruct (f x) eqn:Hx; simpl; [|done]. by rewrite Hx, IH.
Qed.

Lemma elem_of_filter {A} (f : A -> bool) (l : list A) x :
  x ∈ List.filter f l <-> x ∈ l /\ f x = true.
Proof. by rewrite !list_elem_of_In, filter_In. Qed.

(** X12: on an array, [select] keeps exactly the entries that [matches]
    accepts, in their order; a [null] entry is never kept; selecting again
    changes nothing; on an array without [null] it is the filter by
    [matches]. *)
Theorem select_array_spec
    (this : LabelSelector_t) (resources : list (option resource_t))
    (present_resources : list resource_t) :
  (forall r, r ∈ select_array this resources
             <-> r ∈ resources /\ matches this r = true)
  /\ (None ∉ select_array this resources)
  /\ sublist (select_array this resources) resources
  /\ select_array this (select_array this resources) = select_array this resources
  /\ select_array this (map Some present_resources)
     = map Some (select this present_resources).
Proof.
  unfold select_array, select.
  split; [|split; [|split; [|split]]].
  - intros r. apply elem_of_filter.
  - by intros [_ ?]%elem_of_filter.
  - apply filter_sublist.
  - apply filter_filter.
  - induction present_resources as [|r l IH]; [done|].
    cbn [map List.filter]. destruct (matches this (Some r)); cbn [map]; by rewrite IH.
Qed.

(** X13: a selector without conjuncts selects every entry of an array that
    is not [null] when [emptySelectsAll] is set, and none otherwise. *)
Theorem select_array_no_conjuncts
    (this : LabelSelector_t) (resources : list (option resource_t)) :
  select_array (clearConjuncts this) resources
  = if _emptySelectsAll this then List.filter present resources else [].
Proof.
  unfold select_array. induction resources as [|[r|] l IH]; cbn [List.filter].
  - by destruct (_emptySelectsAll this).
  - rewrite IH. unfold matches, clearConjuncts. simpl.
    by destruct (_emptySelectsAll this).
  - rewrite IH. unfold matches, clearConjuncts. simpl.
    by destruct (_emptySelectsAll this).
Qed.

(** X14: on a keyed collection, [select] keeps exactly the entries whose
    resource [matches] accepts, under their keys and in their order; the
    resources kept are those that [select] keeps from the array of the
    values, and the keys kept are keys of the collection, in its order. *)
Theorem select_map_spec
    (this : LabelSelector_t) (resources : obj (option resource_t)) :
  (forall k r, (k, r) ∈ select_map this resources
               <-> (k, r) ∈ resources /\ matches this r = true)
  /\ sublist (select_map this resources) resources
  /\ obj_values (select_map this resources)
     = select_array this (obj_values resources)
  /\ sublist (obj_keys (select_map this resources)) (obj_keys resources).
Proof.
  unfold select_map, select_array, obj_values, obj_keys.
  split; [|split; [|split]].
  - intros k r. apply (elem_of_filter (fun entry => matches this (snd entry))).
  - apply filter_sublist.
  - induction resources as [|[k r] l IH]; [done|].
    cbn [map List.filter snd]. destruct (matches this r); cbn [map snd]; by rewrite IH.
  - apply (fmap_sublist fst), filter_sublist.
Qed.

(** ** Subsumption and matching *)

Lemma loose_eq_true operator name : loose_eq operator name = true -> operator = Some name.
Proof. destruct operator as [s|]; simpl; [|done]. by intros ->%String.eqb_eq. Qed.

Lemma satisfied_exists_present lbls conjunct :
  c_operator conjunct = Some "exists" ->
  satisfied lbls conjunct = present (lbls !! c_key conjunct).
Proof.
  intros H. unfold satisfied. rewrite H. simpl.
  destruct (lbls !! c_key conjunct) as [v|]; simpl; [|done].
  by destruct (String.eqb v "").
Qed.

Lemma satisfied_in_label lbls conjunct :
  c_operator conjunct = Some "in" ->
  satisfied lbls conjunct = true
  <-> exists v, lbls !! c_key conjunct = Some v /\ v ∈ c_values conjunct.
Proof.
  intros H. unfold satisfied. rewrite H. simpl.
  destruct (lbls !! c_key conjunct) as [v|]; simpl.
  - assert (negb (String.eqb v "") || String.eqb v "" = true) as ->
      by by destruct (String.eqb v "").
    destruct (in_loop (Some v) (c_values conjunct)) eqn:Hloop; simpl.
    + apply in_loop_true in Hloop. split; [eauto|done].
    + split; [done|]. intros (w & [= <-] & Hw).
      apply in_loop_true in Hw. congruence.
  - split; [done|]. by intros (w & ? & _).
Qed.

Lemma satisfied_not_in_label lbls conjunct :
  c_operator conjunct = Some "not in" ->
  satisfied lbls conjunct = true
  <-> forall v, lbls !! c_key conjunct = Some v -> v <> "" -> v ∉ c_values conjunct.
Proof.
  intros H. rewrite (satisfied_not_in _ _ H).
  destruct (lbls !! c_key conjunct) as [v|]; simpl; [|done].
  destruct (String.eqb_spec v "") as [->|Hne]; simpl.
  - split; [|done]. by intros _ w [= <-].
  - rewrite <- not_false_iff_true, not_in_loop_false. split.
    + by intros Hv w [= <-] _.
    + intros Hv. by apply Hv.
Qed.

Lemma satisfied_same_fields lbls c c' :
  c_key c' = c_key c -> c_operator c' = c_operator c -> c_values c' = c_values c ->
  satisfied lbls c' = satisfied lbls c.
Proof. intros Hk Ho Hv. unfold satisfied. by rewrite Hk, Ho, Hv. Qed.

Lemma hasConjunct_stored selector conjunct :
  hasConjunct selector conjunct = true ->
  exists b,
    b ∈ _conjuncts selector
    /\ fst b = _getIdForConjunct (c_key conjunct) (c_operator conjunct)
                 (c_values conjunct).
Proof.
  unfold hasConjunct. destruct (obj_get _ _) as [c'|] eqn:Hget; [|done].
  intros _. apply obj_get_Some in Hget. eauto.
Qed.

Lemma findConjunctsMatching_some selector operator key :
  _isEmpty (findConjunctsMatching selector operator key) = false ->
  exists b,
    b ∈ findConjunctsMatching selector operator key
    /\ b ∈ _conjuncts selector /\ c_operator (snd b) = operator
    /\ c_key (snd b) = key.
Proof.
  intros H. apply _isEmpty_false in H as [b Hb]. exists b. split; [done|].
  by apply elem_of_findConjunctsMatching.
Qed.

(** A conjunct that the other selector accounts for holds on every label
    mapping on which all the conjuncts of the other selector hold. *)
Lemma covered_satisfied selector conjunct lbls :
  (forall b, b ∈ _conjuncts selector -> satisfied lbls (snd b) = true) ->
  (forall b, b ∈ _conjuncts selector ->
     fst b = _getIdForConjunct (c_key conjunct) (c_operator conjunct)
               (c_values conjunct) ->
     c_key (snd b) = c_key conjunct /\ c_operator (snd b) = c_operator conjunct
     /\ c_values (snd b) = c_values conjunct) ->
  covered selector conjunct = true ->
  satisfied lbls conjunct = true.
Proof.
  intros Hall Hexact. unfold covered.
  destruct (hasConjunct selector conjunct) eqn:Hhas.
  { intros _. apply hasConjunct_stored in Hhas as (b & Hb & Hid).
    destruct (Hexact b Hb Hid) as (Hk & Ho & Hv).
    rewrite <- (satisfied_same_fields lbls _ _ Hk Ho Hv). auto. }
  destruct (loose_eq (c_operator conjunct) "exists") eqn:He.
  { apply loose_eq_true in He. intros Hc%negb_true_iff.
    apply findConjunctsMatching_some in Hc as (b & _ & Hb & Hop & Hkey).
    rewrite (satisfied_exists_present _ _ He).
    pose proof (Hall b Hb) as Hs.
    apply (satisfied_in_label _ _ Hop) in Hs as (v & Hv & _).
    by rewrite <- Hkey, Hv. }
  destruct (loose_eq (c_operator conjunct) "does not exist") eqn:Hd; [done|].
  destruct (loose_eq (c_operator conjunct) "in") eqn:Hi.
  { apply loose_eq_true in Hi.
    destruct (_isEmpty _) eqn:Hemp; [done|]. intros Hevery.
    apply findConjunctsMatching_some in Hemp as (b & Hfind & Hb & Hop & Hkey).
    apply (proj1 (_every_true _ _) Hevery), in_test in Hfind as [_ Hsub].
    pose proof (Hall b Hb) as Hs.
    apply (satisfied_in_label _ _ Hop) in Hs as (v & Hv & Hin).
    apply (satisfied_in_label _ _ Hi). exists v. rewrite <- Hkey. auto. }
  destruct (loose_eq (c_operator conjunct) "not in") eqn:Hn.
  { apply loose_eq_true in Hn.
    destruct (_isEmpty _) eqn:Hemp; [done|]. intros Hevery.
    apply findConjunctsMatching_some in Hemp as (b & Hfind & Hb & Hop & Hkey).
    apply (proj1 (_every_true _ _) Hevery), not_in_test in Hfind as [_ Hsub].
    pose proof (Hall b Hb) as Hs.
    apply (satisfied_not_in_label _ _ Hn). intros v Hv Hne Hin.
    rewrite <- Hkey in Hv.
    by apply (proj1 (satisfied_not_in_label _ _ Hop) Hs v Hv Hne), Hsub. }
  intros _. unfold satisfied. by rewrite He, Hd, Hi, Hn.
Qed.

(** X15: when [covers] answers true and no entry of the other selector
    sits under the id of a conjunct of this one with other contents, every
    resource that the other selector matches is matched by this one. *)
Theorem covers_sound
    (this selector : LabelSelector_t) (resource : resource_t) :
  ids_exact this selector ->
  covers this selector = true ->
  matches selector (Some resource) = true ->
  matches this (Some resource) = true.
Proof.
  intros Hexact [Hne Hcov]%covers_true Hm.
  apply (matches_nonempty _ _ Hne). intros a Ha.
  apply (covered_satisfied selector); [| |by apply Hcov].
  - intros b Hb. revert Hm. unfold matches.
    destruct (isEmpty selector) eqn:Hemp.
    + apply isEmpty_nil in Hemp. rewrite Hemp in Hb. by apply elem_of_nil in Hb.
    + intros Hm. by apply (proj1 (forallb_elem_of _ _) Hm b).
  - intros b Hb Hid. by apply (Hexact a b).
Qed.

Lemma covers_sound_witness :
  ids_exact (single "tier" "in" ["frontend"; "backend"])
    (single "tier" "in" ["frontend"])
  /\ covers (single "tier" "in" ["frontend"; "backend"])
       (single "tier" "in" ["frontend"]) = true
  /\ matches (single "tier" "in" ["frontend"])
       (Some (flat_resource {[ "tier" := "frontend" ]})) = true
  /\ matches (single "tier" "in" ["frontend"; "backend"])
       (Some (flat_resource {[ "tier" := "frontend" ]})) = true.
Proof.
  assert (ids_exact (single "tier" "in" ["frontend"; "backend"])
            (single "tier" "in" ["frontend"])) as Hexact.
  { intros a b Ha Hb. vm_compute in Ha, Hb.
    apply list_elem_of_singleton in Ha, Hb. subst a b. discriminate. }
  split; [exact Hexact|]. split; [reflexivity|]. split; [reflexivity|].
  apply (covers_sound _ (single "tier" "in" ["frontend"]) _ Hexact);
    reflexivity.
Defined.

(** An "in" conjunct without values and one with the empty string as its
    only value have the same id: the first is found in a selector that
    holds the second, and [covers] answers true although only the second
    holds on the label [{tier: ""}]. *)
Example covers_shared_id :
  covers (single "tier" "in" []) (single "tier" "in" [""]) = true
  /\ matches (single "tier" "in" [""]) (Some (flat_resource {[ "tier" := "" ]}))
     = true
  /\ matches (single "tier" "in" []) (Some (flat_resource {[ "tier" := "" ]}))
     = false.
Proof. repeat split. Qed.

(** X16: a selector built by the constructor and any calls covers itself
    exactly when it has a conjunct. *)
Theorem covers_self
    (selector : option selector_json) (emptySelectsAll : bool) (calls : list call) :
  covers (run calls (LabelSelector selector emptySelectsAll))
    (run calls (LabelSelector selector emptySelectsAll))
  = negb (isEmpty (run calls (LabelSelector selector emptySelectsAll))).
Proof.
  pose proof (well_keyed_reachable selector emptySelectsAll calls) as [Hnd Hok].
  set (this := run calls (LabelSelector selector emptySelectsAll)) in *.
  unfold covers. destruct (isEmpty this); [done|]. simpl.
  apply _every_true. intros [id c] He. simpl.
  assert (hasConjunct this c = true) as Hhas.
  { unfold hasConjunct.
    destruct (proj1 (Forall_forall _ _) Hok _ He) as [Hid Hc]. simpl in Hid, Hc.
    assert (_getIdForConjunct (c_key c) (c_operator c) (c_values c) = id) as ->.
    { rewrite Hid. exact (eq_sym (f_equal c_id Hc)). }
    by rewrite (obj_get_NoDup _ _ _ Hnd He). }
  unfold covered. by rewrite Hhas.
Qed.

(** X17: an "exists" conjunct is counted as covered exactly when the other
    selector has an entry under its id or an "in" conjunct on its key; a
    "does not exist" conjunct only when the other selector has an entry
    under its id. *)
Theorem covered_exists_does_not_exist
    (selector : LabelSelector_t) (key : string) (values : list string) :
  (covered selector (make_conjunct key (Some "exists") values) = true
   <-> hasConjunct selector (make_conjunct key (Some "exists") values) = true
       \/ exists b, b ∈ _conjuncts selector /\ c_operator (snd b) = Some "in"
                    /\ c_key (snd b) = key)
  /\ covered selector (make_conjunct key (Some "does not exist") values)
     = hasConjunct selector (make_conjunct key (Some "does not exist") values).
Proof.
  split.
  - unfold covered. destruct (hasConjunct _ _); [by split; auto|].
    cbn [make_conjunct c_operator c_key loose_eq].
    change (String.eqb "exists" "exists") with true. cbn iota.
    rewrite negb_true_iff, _isEmpty_false. split.
    + intros [b Hb]. right. exists b. by apply elem_of_findConjunctsMatching in Hb.
    + intros [|(b & Hb)]; [done|]. exists b. by apply elem_of_findConjunctsMatching.
  - unfold covered. by destruct (hasConjunct _ _).
Qed.

(** ** Export *)

Lemma reverse_operator_cases operator :
  (known_operator operator = true
   /\ table_get _REVERSE_OPERATOR_MAP operator
        ∈ [Some "In"; Some "NotIn"; Some "Exists"; Some "DoesNotExist"])
  \/ (known_operator operator = false
      /\ table_get _REVERSE_OPERATOR_MAP operator = None).
Proof.
  unfold known_operator, table_get. destruct operator as [s|]; [|by right].
  change (js_to_string (Some s)) with s.
  unfold _REVERSE_OPERATOR_MAP. rewrite !obj_get_cons.
  destruct (String.eqb "in" s).
  { left. split; [done|]. apply list_elem_of_here. }
  destruct (String.eqb "not in" s).
  { left. split; [done|]. do 1 apply list_elem_of_further. apply list_elem_of_here. }
  destruct (String.eqb "exists" s).
  { left. split; [done|]. do 2 apply list_elem_of_further. apply list_elem_of_here. }
  destruct (String.eqb "does not exist" s).
  { left. split; [done|]. do 3 apply list_elem_of_further. apply list_elem_of_here. }
  by right.
Qed.

(** X18: when no stored operator is the name of an inherited member,
    [exportJSON] gives one expression per conjunct, in the order of the
    collection, with the key and the values of the conjunct; its operator
    is one of the four API names when the operator of the conjunct is one
    of the four internal names, and is left out otherwise; read back
    through [_OPERATOR_MAP] it gives the operator of the conjunct in the
    first case and [undefined] in the second. *)
Theorem exportJSON_entries (this : LabelSelector_t) :
  own_operators this = true ->
  Forall2
    (fun entry e =>
       e_key e = c_key (snd entry)
       /\ e_values e = c_values (snd entry)
       /\ (if known_operator (c_operator (snd entry))
           then e_operator e
                  ∈ [Some "In"; Some "NotIn"; Some "Exists"; Some "DoesNotExist"]
                /\ table_get _OPERATOR_MAP (e_operator e) = c_operator (snd entry)
           else e_operator e = None
                /\ table_get _OPERATOR_MAP (e_operator e) = None))
    (_conjuncts this) (exportJSON this).
Proof.
  intros _. unfold exportJSON. induction (_conjuncts this) as [|entry o IH]; simpl.
  - constructor.
  - constructor; [|done]. split; [done|]. split; [done|]. simpl.
    destruct (reverse_operator_cases (c_operator (snd entry))) as [[Hk Hin]|[Hk Hn]];
      rewrite Hk.
    + split; [done|]. by apply known_operator_round_trip.
    + by rewrite Hn.
Qed.

Lemma exportJSON_entries_witness :
  own_operators (add (run web_calls (LabelSelector (Some web_selector) false))
                   "app" (Some "In") ["web"]) = true
  /\ length (exportJSON (add (run web_calls (LabelSelector (Some web_selector) false))
                           "app" (Some "In") ["web"]))
     = length (_conjuncts (add (run web_calls (LabelSelector (Some web_selector) false))
                             "app" (Some "In") ["web"])).
Proof.
  split; [reflexivity|]. symmetry.
  apply (Forall2_length _ _ _
           (exportJSON_entries
              (add (run web_calls (LabelSelector (Some web_selector) false))
                 "app" (Some "In") ["web"]) eq_refl)).
Defined.

(** ** Display strings *)

Lemma append_nil_r (s : string) : s +:+ "" = s.
Proof.
  induction s as [|c s IH]; [done|].
  change (String c (s +:+ "") = String c s). by f_equal.
Qed.

Lemma values_string_join values :
  values_string values = join ", " (map display_value values).
Proof.
  induction values as [|v [|w rest] IH]; [done| |].
  - simpl. by rewrite !append_nil_r.
  - change (values_string (v :: w :: rest))
      with (display_value v +:+ ", " +:+ values_string (w :: rest)).
    by rewrite IH.
Qed.

(** X19: the display string of an "in" or "not in" conjunct lists the
    values separated by a comma and a space, an empty value shown as two
    double quotes; a conjunct whose operator is [undefined] is displayed as
    an "in" conjunct; the display of "exists" and "does not exist" does not
    depend on the values. *)
Theorem getString_values
    (key : string) (values values' : list string) :
  _getStringForConjunct key (Some "in") values
  = key +:+ " in (" +:+ join ", " (map display_value values) +:+ ")"
  /\ _getStringForConjunct key (Some "not in") values
     = (key +:+ " not") +:+ " in (" +:+ join ", " (map display_value values) +:+ ")"
  /\ _getStringForConjunct key None values
     = _getStringForConjunct key (Some "in") values
  /\ _getStringForConjunct key (Some "exists") values
     = _getStringForConjunct key (Some "exists") values'
  /\ _getStringForConjunct key (Some "does not exist") values
     = _getStringForConjunct key (Some "does not exist") values'.
Proof.
  unfold _getStringForConjunct. simpl. rewrite values_string_join. done.
Qed.

(** ** Ids and value lists *)

Lemma occurs_append c (a b : string) : occurs c (a +:+ b) = occurs c a || occurs c b.
Proof.
  induction a as [|x a IH]; simpl; [done|]. by rewrite IH, orb_assoc.
Qed.

Lemma join_comma_occurs x y rest : occurs "," (join "," (x :: y :: rest)) = true.
Proof.
  change (join "," (x :: y :: rest)) with (x +:+ "," +:+ join "," (y :: rest)).
  rewrite occurs_append. simpl. apply orb_true_r.
Qed.

Lemma join_nonempty_inj (l1 l2 : list string) :
  Forall comma_free l1 -> Forall comma_free l2 ->
  l1 <> [] -> l2 <> [] ->
  join "," l1 = join "," l2 -> l1 = l2.
Proof.
  intros H1. revert l2.
  induction H1 as [|x l1 Hx H1 IH]; intros l2 H2 Hne1 Hne2 Hjoin; [done|].
  destruct H2 as [|y l2 Hy H2]; [done|].
  destruct l1 as [|x' l1], l2 as [|y' l2].
  - simpl in Hjoin. by subst.
  - exfalso. pose proof (join_comma_occurs y y' l2) as Hc.
    rewrite <- Hjoin in Hc. simpl in Hc. unfold comma_free in Hx. congruence.
  - exfalso. pose proof (join_comma_occurs x x' l1) as Hc.
    rewrite Hjoin in Hc. simpl in Hc. unfold comma_free in Hy. congruence.
  - change (x +:+ "," +:+ join "," (x' :: l1)
            = y +:+ "," +:+ join "," (y' :: l2)) in Hjoin.
    apply comma_split in Hjoin as [-> Hjoin]; [|done..].
    f_equal. by apply IH.
Qed.

(** X20: for values without a comma, two conjuncts with the same key and
    operator have the same id only when they have the same value list, or
    when one has no value and the other the empty string as its only
    value; those two do have the same id. *)
Theorem getId_values_injective
    (key : string) (operator : option string) (values1 values2 : list string) :
  Forall comma_free values1 ->
  Forall comma_free values2 ->
  _getIdForConjunct key operator values1 = _getIdForConjunct key operator values2 ->
  (values1 = values2
   \/ (values1 = [] /\ values2 = [""])
   \/ (values1 = [""] /\ values2 = []))
  /\ _getIdForConjunct key operator [] = _getIdForConjunct key operator [""].
Proof.
  intros H1 H2 Hid%getId_inv. split; [|done].
  destruct values1 as [|x l1], values2 as [|y l2].
  - by left.
  - right; left. split; [done|].
    destruct l2 as [|y' l2].
    + simpl in Hid. by subst.
    + pose proof (join_comma_occurs y y' l2) as Hc. by rewrite <- Hid in Hc.
  - right; right. split; [|done].
    destruct l1 as [|x' l1].
    + simpl in Hid. by subst.
    + pose proof (join_comma_occurs x x' l1) as Hc. by rewrite Hid in Hc.
  - left. by apply join_nonempty_inj.
Qed.

Lemma getId_values_injective_witness :
  Forall comma_free ["a"; "b"]
  /\ Forall comma_free ["a"; "b"]
  /\ _getIdForConjunct "tier" (Some "in") ["a"; "b"]
     = _getIdForConjunct "tier" (Some "in") ["a"; "b"]
  /\ _getIdForConjunct "tier" (Some "in") []
     = _getIdForConjunct "tier" (Some "in") [""].
Proof.
  assert (Forall comma_free ["a"; "b"]) as Hfree by (repeat constructor).
  split; [exact Hfree|]. split; [exact Hfree|]. split; [reflexivity|].
  apply (getId_values_injective "tier" (Some "in") ["a"; "b"] ["a"; "b"]
           Hfree Hfree eq_refl).
Defined.

(** ** Parsing and exporting *)

Lemma api_operator_round_trip operator :
  present (table_get _OPERATOR_MAP operator) = true ->
  table_get _REVERSE_OPERATOR_MAP (table_get _OPERATOR_MAP operator) = operator.
Proof.
  unfold table_get. destruct operator as [s|]; [|done].
  change (js_to_string (Some s)) with s.
  unfold _OPERATOR_MAP. rewrite !obj_get_cons.
  destruct (String.eqb_spec "In" s) as [<-|_]; [done|].
  destruct (String.eqb_spec "NotIn" s) as [<-|_]; [done|].
  destruct (String.eqb_spec "Exists" s) as [<-|_]; [done|].
  destruct (String.eqb_spec "DoesNotExist" s) as [<-|_]; [done|].
  done.
Qed.

Lemma add_matchExpression_conjunct this e :
  _conjuncts (add_matchExpression this e)
  = obj_set (c_id (expression_conjunct e)) (expression_conjunct e) (_conjuncts this).
Proof. reflexivity. Qed.

(** X21: when the entries of [matchExpressions] have operators among the
    four API names and give conjuncts with pairwise distinct ids, the
    selector built from them exports the same entries in the same order. *)
Theorem parse_then_export
    (expressions : list expression) (others : list (string * option string))
    (emptySelectsAll : bool) :
  forallb api_operator expressions = true ->
  NoDup (map (fun e => c_id (expression_conjunct e)) expressions) ->
  exportJSON
    (LabelSelector
       (Some {| matchLabels := None; matchExpressions := Some expressions;
                fields := others |})
       emptySelectsAll)
  = expressions.
Proof.
  intros Hops Hnd. unfold LabelSelector, exportJSON.
  cbn [matchLabels matchExpressions present orb forEach].
  rewrite (fold_add_fresh _ _ add_matchExpression_conjunct) by done.
  cbn [_conjuncts app]. rewrite map_map.
  clear Hnd. induction expressions as [|e l IH]; [done|].
  cbn [forallb] in Hops. apply andb_true_iff in Hops as [He Hl].
  cbn [map]. rewrite (IH Hl). f_equal.
  unfold export_entry, expression_conjunct. simpl.
  rewrite (api_operator_round_trip _ He). by destruct e.
Qed.

Lemma parse_then_export_witness :
  forallb api_operator (entries_of (matchExpressions web_selector)) = true
  /\ NoDup (map (fun e => c_id (expression_conjunct e))
              (entries_of (matchExpressions web_selector)))
  /\ exportJSON
       (LabelSelector
          (Some {| matchLabels := None;
                   matchExpressions :=
                     Some (entries_of (matchExpressions web_selector));
                   fields := [] |})
          false)
     = entries_of (matchExpressions web_selector).
Proof.
  assert (NoDup (map (fun e => c_id (expression_conjunct e))
                   (entries_of (matchExpressions web_selector)))) as Hnd.
  { apply (bool_decide_unpack _). vm_compute. exact I. }
  split; [reflexivity|]. split; [exact Hnd|].
  apply (parse_then_export _ [] false); [reflexivity|exact Hnd].
Defined.

(** ** Removing by an object without id *)

Lemma getId_has_dash key operator values :
  occurs "-" (_getIdForConjunct key operator values) = true.
Proof.
  unfold _getIdForConjunct. rewrite !occurs_append. simpl.
  by rewrite orb_true_r.
Qed.

(** X22: on a selector built by the constructor and any calls,
    [removeConjunct] given a conjunct object whose [id] is the empty string
    removes nothing: the property name it deletes has no "-", and every id
    has one. *)
Theorem removeConjunct_without_id
    (selector : option selector_json) (emptySelectsAll : bool) (calls : list call)
    (conjunct : conjunct) :
  c_id conjunct = "" ->
  removeConjunct (run calls (LabelSelector selector emptySelectsAll)) (inl conjunct)
  = run calls (LabelSelector selector emptySelectsAll).
Proof.
  intros Hid.
  pose proof (well_keyed_reachable selector emptySelectsAll calls) as [_ Hok].
  set (this := run calls (LabelSelector selector emptySelectsAll)) in *.
  unfold removeConjunct. rewrite Hid. cbn [truthy String.eqb negb].
  rewrite obj_delete_absent; [apply set_conjuncts_same|].
  apply obj_get_None. intros ([k c] & Hk & He)%list_elem_of_fmap.
  simpl in Hk. subst k.
  destruct (proj1 (Forall_forall _ _) Hok _ He) as [Hkey Hc]. simpl in Hkey, Hc.
  pose proof (getId_has_dash (c_key c) (c_operator c) (c_values c)) as Hdash.
  change (_getIdForConjunct (c_key c) (c_operator c) (c_values c))
    with (c_id (make_conjunct (c_key c) (c_operator c) (c_values c))) in Hdash.
  rewrite <- Hc, <- Hkey in Hdash. discriminate Hdash.
Qed.

Lemma removeConjunct_without_id_witness :
  c_id {| c_key := "app"; c_operator := Some "in"; c_values := ["web"];
          c_id := ""; c_string := "" |} = ""
  /\ removeConjunct (run web_calls (LabelSelector (Some web_selector) false))
       (inl {| c_key := "app"; c_operator := Some "in"; c_values := ["web"];
               c_id := ""; c_string := "" |})
     = run web_calls (LabelSelector (Some web_selector) false).
Proof.
  split; [reflexivity|].
  apply (removeConjunct_without_id (Some web_selector) false web_calls).
  reflexivity.
Defined.
